(** * The ordered-key tree layer: a shallow embedding of
    [internal/tree/tree.go] and of the insert-conflict actions of
    [internal/database], with the properties of the specification that
    concern them.

    Conventions.
    - A Go [int] or [int64] is a [Z] in [[-2^63, 2^63)], a [uint64] a [Z] in
      [[0, 2^64)]; every arithmetic operation that can leave the range has
      its wrap-around written out ([wrap_int64], [wrap_uint64]).
    - A [[]byte] is a [list byte]; byte strings are ordered as by Go's
      [bytes.Compare] ([bytes_compare]).
    - A Go function returning [(T, error)] that can also panic returns a
      [result T]: [Ok], [Err] or [Panic].
    - The session is the shared store of every tree opened on it: its state
      is threaded through the operations that write to it. *)

From Stdlib Require Import String.
From Stdlib Require Import ZArith List Bool Lia.
From coqutil Require Import Byte.
Import ListNotations.
Local Open Scope Z_scope.

(* ------------------------------------------------------------------ *)
(** ** Machine integers *)

Definition wrap_uint64 (z : Z) : Z := z mod 2 ^ 64.

Definition wrap_int64 (z : Z) : Z := (z + 2 ^ 63) mod 2 ^ 64 - 2 ^ 63.

Definition MaxInt64 : Z := 2 ^ 63 - 1.
Definition MinInt64 : Z := - 2 ^ 63.

Definition is_int64 (z : Z) : Prop := MinInt64 <= z <= MaxInt64.
Definition is_uint64 (z : Z) : Prop := 0 <= z < 2 ^ 64.

(* ------------------------------------------------------------------ *)
(** ** Byte strings and their order *)

Definition bytes : Type := list byte.

Definition xFF : byte := Byte.xff.
Definition x00 : byte := Byte.x00.

(** [bytes.Compare]: lexicographic on the unsigned value of the bytes, a
    proper prefix being smaller. *)
Fixpoint bytes_compare (a b : bytes) : comparison :=
  match a, b with
  | [], [] => Eq
  | [], _ :: _ => Lt
  | _ :: _, [] => Gt
  | x :: a', y :: b' =>
      match Z.compare (byte.unsigned x) (byte.unsigned y) with
      | Eq => bytes_compare a' b'
      | c => c
      end
  end.

Definition bytes_ltb (a b : bytes) : bool :=
  match bytes_compare a b with Lt => true | _ => false end.

Definition bytes_leb (a b : bytes) : bool :=
  match bytes_compare a b with Gt => false | _ => true end.

Definition bytes_eqb (a b : bytes) : bool :=
  match bytes_compare a b with Eq => true | _ => false end.

(** Membership in the half-open interval [[lo, hi)]. *)
Definition in_range (lo hi k : bytes) : bool :=
  bytes_leb lo k && bytes_ltb k hi.

(* ------------------------------------------------------------------ *)
(** ** Errors, results and panics *)

Inductive error : Type :=
| ErrKeyNotFound
| ErrKeyAlreadyExists
| ErrNamespaceInUse (ns : Z)   (* errors.Errorf("namespace %d is already in use", ns) *)
| ErrOther (msg : string).

Inductive result (A : Type) : Type :=
| Ok (a : A)
| Err (e : error)
| Panic (msg : string).

Arguments Ok {A} a.
Arguments Err {A} e.
Arguments Panic {A} msg.

Definition bind {A B : Type} (r : result A) (k : A -> result B) : result B :=
  match r with
  | Ok a => k a
  | Err e => Err e
  | Panic m => Panic m
  end.

Declare Scope result_scope.
Delimit Scope result_scope with result.
Notation "x <- c1 ;; c2" := (bind c1 (fun x => c2))
  (at level 100, c1 at next level, right associativity) : result_scope.
Notation "' pat <- c1 ;; c2" := (bind c1 (fun x => match x with pat => c2 end))
  (at level 100, pat pattern, c1 at next level, right associativity) : result_scope.
Local Open Scope result_scope.

Definition panics {A : Type} (r : result A) : Prop :=
  exists msg, r = Panic msg.

Definition completes {A : Type} (r : result A) : Prop :=
  exists a, r = Ok a.

(* ------------------------------------------------------------------ *)
(** ** SortOrder (tree.go, lines 13-46) *)

Definition Namespace : Type := Z.   (* uint64 *)
Definition SortOrder : Type := Z.   (* uint64 *)

(** [x << s] on a [uint64] with a signed shift count: a negative count
    panics at run time, a count of 64 or more gives 0. *)
Definition shl_uint64 (x s : Z) : result Z :=
  if s <? 0 then Panic "negative shift amount"
  else Ok (wrap_uint64 (Z.shiftl x s)).

(** [x >> s], same rule for the count. *)
Definition shr_uint64 (x s : Z) : result Z :=
  if s <? 0 then Panic "negative shift amount"
  else Ok (Z.shiftr x s).

Definition panic_get : string := "cannot get sort order of value, only 64 values are supported".
Definition panic_set : string := "cannot set sort order of value, only 64 values are supported".

(** [&] and [>>] have the same precedence in Go and associate to the left:
    [uint64(o)&mask>>(63-i)] is [(uint64(o)&mask)>>(63-i)]. *)
Definition IsDesc (o : SortOrder) (i : Z) : result bool :=
  if i >? 63 then Panic panic_get
  else
    mask <- shl_uint64 1 (wrap_int64 (63 - i)) ;;
    r <- shr_uint64 (Z.land o mask) (wrap_int64 (63 - i)) ;;
    Ok (negb (r =? 0)).

Definition SetDesc (o : SortOrder) (i : Z) : result SortOrder :=
  if i >? 63 then Panic panic_set
  else
    mask <- shl_uint64 1 (wrap_int64 (63 - i)) ;;
    Ok (Z.lor o mask).

(** [&^] is AND NOT. *)
Definition SetAsc (o : SortOrder) (i : Z) : result SortOrder :=
  if i >? 63 then Panic panic_set
  else
    mask <- shl_uint64 1 (wrap_int64 (63 - i)) ;;
    Ok (Z.land o (Z.lnot mask)).

(** The direction bit of component [i]: bit 63 is component 0. *)
Definition component_desc (o : SortOrder) (i : Z) : bool := Z.testbit o (63 - i).

(* ------------------------------------------------------------------ *)
(** ** The encoding package and the type system, as the tree uses them

    [internal/encoding] and [internal/types] are not among the sources:
    the tree is written against what they export, which is taken here as
    an interface. *)

Class Codec : Type := {
  (** [types.Value] and [types.Type]; [TypeOf v] is [v.Type()]. *)
  Value : Type;
  ValueType : Type;
  TypeOf : Value -> ValueType;
  (** The four sentinel type tags of a type. *)
  MinEnctype : ValueType -> byte;
  MaxEnctype : ValueType -> byte;
  MinEnctypeDesc : ValueType -> byte;
  MaxEnctypeDesc : ValueType -> byte;
  (** [EncodeInt n] is [encoding.EncodeInt(nil, n)], [n] an [int64]. *)
  EncodeInt : Z -> bytes;
  (** The key encoding of one value, ascending ([false]) or descending
      ([true]); it can fail. *)
  EncodeValue : bool -> Value -> result bytes
}.

Section Tree.

Context {codec : Codec}.

(** [Key], with the two fields tree.go uses: the typed values and the
    cached encoded form; [None] is a nil [Encoded]. *)
Record Key : Type := mkKey {
  values : list Value;
  Encoded : option bytes
}.

Definition NewKey (vs : list Value) : Key := mkKey vs None.

(** [int64(ns)] for [ns] a [uint64]. *)
Definition int64_of_ns (ns : Namespace) : Z := wrap_int64 ns.

(** Modelled from the spec: the components of [Key.Encode], each
    "produced by Value Encoding under the direction bit for that index",
    from index [i] on. *)
Fixpoint encodeValues (order : SortOrder) (i : Z) (vs : list Value) : result bytes :=
  match vs with
  | [] => Ok []
  | v :: rest =>
      desc <- IsDesc order i ;;
      b <- EncodeValue desc v ;;
      r <- encodeValues order (i + 1) rest ;;
      Ok (b ++ r)
  end.

(** Modelled from the spec: [Key.Encode] (the methods of [Key] are not
    among the sources). "Encoding is encode_int(namespace) || component_0 ||
    component_1 || ..., where each component is produced by Value Encoding
    under the direction bit for that index"; a key already carrying an
    encoded form yields it; more than 64 components is a programmer error
    (the panic of [IsDesc]). *)
Definition Encode (k : Key) (ns : Namespace) (order : SortOrder) : result bytes :=
  match Encoded k with
  | Some e => Ok e
  | None =>
      r <- encodeValues order 0 (values k) ;;
      Ok (EncodeInt (int64_of_ns ns) ++ r)
  end.

(** [Tree]: the [Session] field is a reference to the shared session, whose
    state the operations below take and return explicitly. *)
Record Tree : Type := mkTree {
  Namespace_ : Namespace;
  Order : SortOrder
}.

Record Range : Type := mkRange {
  Min : option Key;
  Max : option Key;
  Exclusive : bool
}.

(** [&Range{}] *)
Definition emptyRange : Range := mkRange None None false.

(** [len(s) - 1] as an [int]. *)
Definition last_index {A : Type} (s : list A) : Z := Z.of_nat (length s) - 1.

Definition isDescRange (t : Tree) (rng : Range) : result bool :=
  match Min rng with
  | Some k => IsDesc (Order t) (last_index (values k))
  | None =>
      match Max rng with
      | Some k => IsDesc (Order t) (last_index (values k))
      | None => Ok false
      end
  end.

(** [s[:len(s)-1]]: a slice expression with a negative bound panics. *)
Definition slice_but_last {A : Type} (s : list A) : result (list A) :=
  if last_index s <? 0 then Panic "slice bounds out of range [:-1]"
  else Ok (removelast s).

(** [s[i]] *)
Definition index {A : Type} (s : list A) (i : Z) : result A :=
  if i <? 0 then Panic "index out of range"
  else match nth_error s (Z.to_nat i) with
       | Some a => Ok a
       | None => Panic "index out of range"
       end.

Definition buildFirstKey (t : Tree) : result bytes :=
  Encode (NewKey []) (Namespace_ t) (Order t).

Definition buildLastKey (t : Tree) : bytes :=
  EncodeInt (int64_of_ns (Namespace_ t)) ++ [xFF].

Definition buildMinKeyForType (t : Tree) (max : option Key) (desc : bool) : result bytes :=
  match max with
  | None => buildFirstKey t
  | Some max =>
      if (Z.of_nat (length (values max)) =? 1) then
        let buf := EncodeInt (int64_of_ns (Namespace_ t)) in
        v <- index (values max) 0 ;;
        if desc then Ok (buf ++ [MinEnctypeDesc (TypeOf v)])
        else Ok (buf ++ [MinEnctype (TypeOf v)])
      else
        pre <- slice_but_last (values max) ;;
        buf <- Encode (NewKey pre) (Namespace_ t) (Order t) ;;
        let i := last_index (values max) in
        v <- index (values max) i ;;
        if desc then Ok (buf ++ [MinEnctypeDesc (TypeOf v)])
        else Ok (buf ++ [MinEnctype (TypeOf v)])
  end.

Definition buildMaxKeyForType (t : Tree) (min : option Key) (desc : bool) : result bytes :=
  match min with
  | None => Ok (buildLastKey t)
  | Some min =>
      if (Z.of_nat (length (values min)) =? 1) then
        let buf := EncodeInt (int64_of_ns (Namespace_ t)) in
        v <- index (values min) 0 ;;
        if desc then Ok (buf ++ [MaxEnctypeDesc (TypeOf v)])
        else Ok (buf ++ [MaxEnctype (TypeOf v)])
      else
        pre <- slice_but_last (values min) ;;
        buf <- Encode (NewKey pre) (Namespace_ t) (Order t) ;;
        let i := last_index (values min) in
        v <- index (values min) i ;;
        if desc then Ok (buf ++ [MaxEnctypeDesc (TypeOf v)])
        else Ok (buf ++ [MaxEnctype (TypeOf v)])
  end.

Definition buildStartKeyInclusive (t : Tree) (key : Key) (desc : bool) : result bytes :=
  Encode key (Namespace_ t) (Order t).

Definition buildStartKeyExclusive (t : Tree) (key : Key) (desc : bool) : result bytes :=
  b <- Encode key (Namespace_ t) (Order t) ;;
  Ok (b ++ [xFF]).

Definition buildEndKeyInclusive (t : Tree) (key : Key) (desc : bool) : result bytes :=
  b <- Encode key (Namespace_ t) (Order t) ;;
  Ok (b ++ [xFF]).

Definition buildEndKeyExclusive (t : Tree) (key : Key) (desc : bool) : result bytes :=
  Encode key (Namespace_ t) (Order t).

Definition buildInclusiveBoundaries (t : Tree) (min max : option Key) (desc : bool)
  : result (bytes * bytes) :=
  start <- match min with
           | None => buildMinKeyForType t max desc
           | Some k => buildStartKeyInclusive t k desc
           end ;;
  end_ <- match max with
          | None => buildMaxKeyForType t min desc
          | Some k => buildEndKeyInclusive t k desc
          end ;;
  Ok (start, end_).

Definition buildExclusiveBoundaries (t : Tree) (min max : option Key) (desc : bool)
  : result (bytes * bytes) :=
  start <- match min with
           | None => buildMinKeyForType t max desc
           | Some k => buildStartKeyExclusive t k desc
           end ;;
  end_ <- match max with
          | None => buildMaxKeyForType t min desc
          | Some k => buildEndKeyExclusive t k desc
          end ;;
  Ok (start, end_).

(** Modelled from the spec: what it asks of the integer encoding
    ("order-preserving", "encoded keys of namespace N and N+1 are strictly
    separated in byte order", values parseable "without length prefixes"):
    whatever follows them, the encoding of a smaller integer sorts before
    that of a larger one. *)
Definition EncodeInt_ordered : Prop :=
  forall (a b : Z) (s t : bytes),
    is_int64 a -> is_int64 b -> a < b ->
    bytes_ltb (EncodeInt a ++ s) (EncodeInt b ++ t) = true.

(** Modelled from the spec: "each encoded value begins with a single byte
    identifying its type tag" and "no valid type tag equals 0xFF". *)
Definition tags_below_xFF : Prop :=
  forall (desc : bool) (v : Value) (b : bytes),
    EncodeValue desc v = Ok b -> hd_error b <> None /\ hd_error b <> Some xFF.

(** The encoded keys of a namespace: the namespace prefix and what
    follows it. *)
Definition in_namespace (ns : Namespace) (k : bytes) : Prop :=
  exists rest, k = EncodeInt (int64_of_ns ns) ++ rest.

(** The Min and the Max sentinel tag of a type under a direction. *)
Definition min_sentinel (desc : bool) (ty : ValueType) : byte :=
  if desc then MinEnctypeDesc ty else MinEnctype ty.

Definition max_sentinel (desc : bool) (ty : ValueType) : byte :=
  if desc then MaxEnctypeDesc ty else MaxEnctype ty.

End Tree.

(* ------------------------------------------------------------------ *)
(** ** The session (package engine)

    The tree consumes [engine.Session] and [engine.Iterator] through
    their interfaces only; neither the interfaces nor an implementation
    are among the sources. *)

Module engine.

Record IterOptions : Type := mkIterOptions {
  LowerBound : bytes;
  UpperBound : bytes
}.

(** Modelled from the spec: [engine.Iterator], the cursor the session
    hands out ("supports First/Last/Next/Prev/Valid/Key/Value/Close").
    The cursor ranges over the positions [items], in ascending key order;
    each position has a key and the outcome of reading its value.
    [iterError] is what [Error()] reports, [closed] counts the calls of
    [Close()]. *)
Record Iterator : Type := mkIterator {
  items : list (bytes * result bytes);
  pos : Z;
  iterError : option error;
  closed : nat
}.

Definition seek (it : Iterator) (p : Z) : Iterator :=
  mkIterator (items it) p (iterError it) (closed it).

Definition First (it : Iterator) : Iterator := seek it 0.
Definition Last (it : Iterator) : Iterator := seek it (Z.of_nat (length (items it)) - 1).
Definition Next (it : Iterator) : Iterator := seek it (pos it + 1).
Definition Prev (it : Iterator) : Iterator := seek it (pos it - 1).

Definition Valid (it : Iterator) : bool :=
  (0 <=? pos it) && (pos it <? Z.of_nat (length (items it))).

Definition current (it : Iterator) : option (bytes * result bytes) :=
  if Valid it then nth_error (items it) (Z.to_nat (pos it)) else None.

Definition Key (it : Iterator) : bytes :=
  match current it with Some (k, _) => k | None => [] end.

Definition Value (it : Iterator) : result bytes :=
  match current it with Some (_, v) => v | None => Ok [] end.

Definition Error (it : Iterator) : option error := iterError it.

Definition Close (it : Iterator) : Iterator :=
  mkIterator (items it) (pos it) (iterError it) (S (closed it)).

(** The [Session] interface. A method that returns only an [error]
    returns [None] for nil. *)
Class Session (S : Type) : Type := {
  Insert : S -> bytes -> bytes -> S * option error;
  Put : S -> bytes -> bytes -> S * option error;
  Get : S -> bytes -> result bytes;
  Exists : S -> bytes -> result bool;
  Delete : S -> bytes -> S * option error;
  DeleteRange : S -> bytes -> bytes -> S * option error;
  NewIterator : S -> IterOptions -> result Iterator   (* Session.Iterator *)
}.

End engine.

(** Modelled from the spec: a session, following the contract of the
    session table ("Insert: fails if key exists. Put: upsert. Get: v |
    KeyNotFound. Delete: ok | KeyNotFound. DeleteRange: half-open [lo, hi).
    Iterator: half-open"), over a store kept as an association list in
    ascending key order. *)
Module mem.

Definition store : Type := list (bytes * bytes).

Fixpoint lookup (k : bytes) (s : store) : option bytes :=
  match s with
  | [] => None
  | (k', v) :: s' => if bytes_eqb k k' then Some v else lookup k s'
  end.

Fixpoint upsert (k v : bytes) (s : store) : store :=
  match s with
  | [] => [(k, v)]
  | (k', v') :: s' =>
      match bytes_compare k k' with
      | Lt => (k, v) :: s
      | Eq => (k, v) :: s'
      | Gt => (k', v') :: upsert k v s'
      end
  end.

Definition remove (k : bytes) (s : store) : store :=
  filter (fun kv => negb (bytes_eqb k (fst kv))) s.

Definition between (lo hi : bytes) (s : store) : store :=
  filter (fun kv => in_range lo hi (fst kv)) s.

Definition outside (lo hi : bytes) (s : store) : store :=
  filter (fun kv => negb (in_range lo hi (fst kv))) s.

Definition Insert (s : store) (k v : bytes) : store * option error :=
  match lookup k s with
  | Some _ => (s, Some ErrKeyAlreadyExists)
  | None => (upsert k v s, None)
  end.

Definition Put (s : store) (k v : bytes) : store * option error :=
  (upsert k v s, None).

Definition Get (s : store) (k : bytes) : result bytes :=
  match lookup k s with
  | Some v => Ok v
  | None => Err ErrKeyNotFound
  end.

Definition Exists (s : store) (k : bytes) : result bool :=
  match lookup k s with
  | Some _ => Ok true
  | None => Ok false
  end.

Definition Delete (s : store) (k : bytes) : store * option error :=
  match lookup k s with
  | Some _ => (remove k s, None)
  | None => (s, Some ErrKeyNotFound)
  end.

Definition DeleteRange (s : store) (lo hi : bytes) : store * option error :=
  (outside lo hi s, None).

Definition NewIterator (s : store) (opts : engine.IterOptions) : result engine.Iterator :=
  Ok (engine.mkIterator
        (map (fun kv => (fst kv, Ok (snd kv)))
             (between (engine.LowerBound opts) (engine.UpperBound opts) s))
        (-1) None 0).

#[export] Instance session : engine.Session store := {
  engine.Insert := Insert;
  engine.Put := Put;
  engine.Get := Get;
  engine.Exists := Exists;
  engine.Delete := Delete;
  engine.DeleteRange := DeleteRange;
  engine.NewIterator := NewIterator
}.

End mem.

(* ------------------------------------------------------------------ *)
(** ** The tree operations (tree.go, lines 71-234) *)

(** What a call leaves behind besides its returned error: the state of the
    callback's closure and the iterator it opened, if any, as it is when
    the call returns. *)
Record Outcome (A : Type) : Type := mkOutcome {
  ret : result unit;
  closure : A;
  iterator : option engine.Iterator
}.

Arguments mkOutcome {A} ret closure iterator.
Arguments ret {A} o.
Arguments closure {A} o.
Arguments iterator {A} o.

Definition of_error (e : option error) : result unit :=
  match e with
  | None => Ok tt
  | Some e => Err e
  end.

(** The error returned once the walk is over. *)
Definition returned_error (stop : option (result unit)) (it : engine.Iterator) : result unit :=
  match stop with
  | Some r => r
  | None => of_error (engine.Error it)
  end.

(** The walk moves the cursor and nothing else. *)
Definition same_source (it it' : engine.Iterator) : Prop :=
  engine.items it' = engine.items it /\
  engine.iterError it' = engine.iterError it /\
  engine.closed it' = engine.closed it.

(** The positions in the order the walk meets them. *)
Definition positions (reverse : bool) (it : engine.Iterator) : list (bytes * result bytes) :=
  if reverse then rev (engine.items it) else engine.items it.

Section TreeOps.

Context {codec : Codec} {S : Type} {session : engine.Session S}.

Definition defaultValue : bytes := [x00].

(** [len(v) == 0 || v[0] == 0] *)
Definition is_empty_value (v : bytes) : bool :=
  match v with
  | [] => true
  | b :: _ => Byte.eqb b x00
  end.

Definition Insert (t : Tree) (key : Key) (value : bytes) (s : S) : S * result unit :=
  let value := if (Z.of_nat (length value) =? 0) then defaultValue else value in
  match Encode key (Namespace_ t) (Order t) with
  | Ok k => let (s', e) := engine.Insert s k value in (s', of_error e)
  | Err e => (s, Err e)
  | Panic m => (s, Panic m)
  end.

Definition Put (t : Tree) (key : Key) (value : bytes) (s : S) : S * result unit :=
  let value := if (Z.of_nat (length value) =? 0) then defaultValue else value in
  match Encode key (Namespace_ t) (Order t) with
  | Ok k => let (s', e) := engine.Put s k value in (s', of_error e)
  | Err e => (s, Err e)
  | Panic m => (s, Panic m)
  end.

(** [Ok None] is the return [nil, nil]. *)
Definition Get (t : Tree) (key : Key) (s : S) : result (option bytes) :=
  k <- Encode key (Namespace_ t) (Order t) ;;
  v <- engine.Get s k ;;
  if is_empty_value v then Ok None else Ok (Some v).

Definition Exists (t : Tree) (key : Key) (s : S) : result bool :=
  k <- Encode key (Namespace_ t) (Order t) ;;
  engine.Exists s k.

Definition Delete (t : Tree) (key : Key) (s : S) : S * result unit :=
  match Encode key (Namespace_ t) (Order t) with
  | Ok k => let (s', e) := engine.Delete s k in (s', of_error e)
  | Err e => (s, Err e)
  | Panic m => (s, Panic m)
  end.

(** [int64(t.Namespace)+1] wraps around at [MaxInt64]. *)
Definition Truncate (t : Tree) (s : S) : S * option error :=
  engine.DeleteRange s
    (EncodeInt (int64_of_ns (Namespace_ t)))
    (EncodeInt (wrap_int64 (int64_of_ns (Namespace_ t) + 1))).

(** The state of a callback's closure is threaded through its calls. *)
Definition callback (A : Type) : Type := A -> Key -> option bytes -> A * option error.

(** The loop of lines 209-231. One unit of [fuel] is spent per evaluation
    of the loop condition; [None] when it runs out. *)
Fixpoint walk {A : Type} (fuel : nat) (reverse : bool) (fn : callback A)
  (it : engine.Iterator) (a : A) : option (engine.Iterator * A * result unit) :=
  match fuel with
  | O => None
  | Datatypes.S fuel' =>
      if engine.Valid it then
        let k := mkKey [] (Some (engine.Key it)) in
        match engine.Value it with
        | Err e => Some (it, a, Err e)
        | Panic m => Some (it, a, Panic m)
        | Ok v =>
            let v := if is_empty_value v then None else Some v in
            match fn a k v with
            | (a', Some e) => Some (it, a', Err e)
            | (a', None) =>
                walk fuel' reverse fn
                  (if negb reverse then engine.Next it else engine.Prev it) a'
            end
        end
      else Some (it, a, of_error (engine.Error it))
  end.

(** Lines 196-234: from the outcome of [Session.Iterator] on. The deferred
    [Close] runs after the returned error is computed. The loop condition
    is evaluated at most once per position and once more. *)
Definition iterate {A : Type} (opened : result engine.Iterator) (reverse : bool)
  (fn : callback A) (a : A) : Outcome A :=
  match opened with
  | Err e => mkOutcome (Err e) a None
  | Panic m => mkOutcome (Panic m) a None
  | Ok it =>
      let it := if negb reverse then engine.First it else engine.Last it in
      match walk (Datatypes.S (length (engine.items it))) reverse fn it a with
      | Some (it', a', r) => mkOutcome r a' (Some (engine.Close it'))
      | None => mkOutcome (Panic "unreachable") a (Some it)
      end
  end.

(** Lines 168-190: the boundaries of the iteration. *)
Definition boundaries (t : Tree) (rng : Range) : result (bytes * bytes) :=
  desc <- isDescRange t rng ;;
  let (min, max) := if negb desc then (Min rng, Max rng) else (Max rng, Min rng) in
  if negb (Exclusive rng) then buildInclusiveBoundaries t min max desc
  else buildExclusiveBoundaries t min max desc.

Definition IterateOnRange {A : Type} (t : Tree) (rng : option Range) (reverse : bool)
  (fn : callback A) (a : A) (s : S) : Outcome A :=
  let rng := match rng with None => emptyRange | Some r => r end in
  match boundaries t rng with
  | Err e => mkOutcome (Err e) a None
  | Panic m => mkOutcome (Panic m) a None
  | Ok (start, end_) =>
      iterate (engine.NewIterator s (engine.mkIterOptions start end_)) reverse fn a
  end.

(** The walk as the specification words it, on the sequence of positions
    in the order they are met: the first error from reading a value or from
    the callback stops it, [Some] holding that error; [None] when every
    position was read and handed to the callback without error. *)
Fixpoint visit {A : Type} (fn : callback A) (l : list (bytes * result bytes)) (a : A)
  : A * option (result unit) :=
  match l with
  | [] => (a, None)
  | (k, rv) :: l' =>
      match rv with
      | Err e => (a, Some (Err e))
      | Panic m => (a, Some (Panic m))
      | Ok v =>
          match fn a (mkKey [] (Some k)) (if is_empty_value v then None else Some v) with
          | (a', Some e) => (a', Some (Err e))
          | (a', None) => visit fn l' a'
          end
      end
  end.

(** What a call of the callback at a position of key [fst x] and stored
    value [snd x] leaves in its closure. *)
Definition handed {A : Type} (fn : callback A) (a : A) (x : bytes * bytes) : A :=
  fst (fn a (mkKey [] (Some (fst x)))
          (if is_empty_value (snd x) then None else Some (snd x))).

(** A callback that never fails and keeps what it is handed: the encoded
    form of the key and the value. *)
Definition collect : callback (list (bytes * option bytes)) :=
  fun seen k v =>
    (seen ++ [(match Encoded k with Some e => e | None => [] end, v)], None).

(** What [collect] keeps of a position. *)
Definition delivered (x : bytes * bytes) : bytes * option bytes :=
  (fst x, if is_empty_value (snd x) then None else Some (snd x)).

(** The positions of an iterator all of whose values can be read. *)
Definition readable (l : list (bytes * bytes)) : list (bytes * result bytes) :=
  map (fun kv => (fst kv, Ok (snd kv))) l.

(** The callback of [NewTransient] has an empty closure. *)
Definition in_use (ns : Namespace) : callback unit :=
  fun a _ _ => (a, Some (ErrNamespaceInUse ns)).

Definition NewTransient (ns : Namespace) (order : SortOrder) (s : S)
  : result (Tree * (S -> S * option error)) :=
  let t := mkTree ns order in
  match ret (IterateOnRange t None false (in_use ns) tt s) with
  | Ok _ => Ok (t, Truncate t)
  | Err e => Err e
  | Panic m => Panic m
  end.

End TreeOps.

Section OnMemory.

Context {codec : Codec}.

(** The iterator the in-memory session opens on a whole namespace. *)
Definition whole (t : Tree) (s : mem.store) : engine.Iterator :=
  engine.mkIterator
    (map (fun kv => (fst kv, Ok (snd kv)))
         (mem.between (EncodeInt (int64_of_ns (Namespace_ t))) (buildLastKey t) s))
    (-1) None 0.

(** The value [Insert] and [Put] hand to the session. *)
Definition stored_value (v : bytes) : bytes :=
  if (Z.of_nat (length v) =? 0) then defaultValue else v.

(** The bounds of the [DeleteRange] of [Truncate]. *)
Definition truncate_lo (t : Tree) : bytes := EncodeInt (int64_of_ns (Namespace_ t)).
Definition truncate_hi (t : Tree) : bytes :=
  EncodeInt (wrap_int64 (int64_of_ns (Namespace_ t) + 1)).

End OnMemory.

(* ------------------------------------------------------------------ *)
(** ** The insert-conflict actions (package database)

    The action has three arguments in conflict.go and four, the fourth
    being the triggering error, in the later revision of the file. [Table],
    its [Replace] method and [Info.GetPrimaryKey] are declared outside the
    sources and are taken as given. *)

Module database.

Section Conflict.

Variables Table Document PrimaryKey : Type.

(** [t.Replace(key, d)]: the table after the call and the error. *)
Variable Replace : Table -> bytes -> Document -> Table * option error.

(** [t.Info.GetPrimaryKey()] *)
Variable GetPrimaryKey : Table -> PrimaryKey.

(** The documents an action returns: the incoming one, or the incoming
    one annotated with its key and the primary key. *)
Inductive returned : Type :=
| incoming (d : Document)
| documentWithKey (d : Document) (key : bytes) (pk : PrimaryKey).

(** A nil key is [None]; a nil document or error is [None]. *)
Definition OnInsertConflictAction : Type :=
  Table -> option bytes -> Document -> option error ->
  Table * (option returned * option error).

(** conflict.go, lines 11-13: the three-argument action. *)
Definition OnInsertConflictDoNothing3 (t : Table) (key : option bytes) (d : Document)
  : Table * (option returned * option error) :=
  (t, (None, None)).

Definition OnInsertConflictDoNothing : OnInsertConflictAction :=
  fun t key d err => (t, (None, None)).

Definition OnInsertConflictDoReplace : OnInsertConflictAction :=
  fun t key d err =>
    match key with
    | None => (t, (Some (incoming d), err))
    | Some key =>
        match Replace t key d with
        | (t', Some err) => (t', (None, Some err))
        | (t', None) => (t', (Some (documentWithKey d key (GetPrimaryKey t')), None))
        end
    end.

End Conflict.

Arguments incoming {Document PrimaryKey} d.
Arguments documentWithKey {Document PrimaryKey} d key pk.
Arguments OnInsertConflictDoNothing3 {Table Document PrimaryKey} t key d.
Arguments OnInsertConflictDoNothing {Table Document PrimaryKey} t key d err.
Arguments OnInsertConflictDoReplace {Table Document PrimaryKey} Replace GetPrimaryKey t key d err.

End database.

(* ------------------------------------------------------------------ *)
(** ** The union operator (package stream)

    [UnionOperator.String]; an operand is given by what its own
    [String()] returns. [Iterate] works through the operands, a transient
    index and the document encoding, none of which is among the sources. *)

Module stream.

(** The loop of [String]: [s] is what the builder holds when the operand
    of index [i] is reached. *)
Fixpoint write_ops (i : nat) (ops : list string) (s : string) : string :=
  match ops with
  | [] => s
  | op :: rest =>
      let s := if (0 <? i)%nat then (s ++ ", ")%string else s in
      write_ops (Datatypes.S i) rest (s ++ op)%string
  end.

Definition String (ops : list string) : string :=
  (write_ops 0 ops ((EmptyString ++ "union") ++ "(") ++ ")")%string.

End stream.

(* ------------------------------------------------------------------ *)
(** ** A small codec

    An instance of [Codec] on which the definitions run: two value
    types, integers encoded on eight big-endian bytes with the sign bit
    flipped (an order-preserving, fixed-width stand-in for
    [encoding.EncodeInt]), the descending form being the complement. *)

Module demo.

Inductive ty : Type := Integer | Boolean.

Inductive val : Type :=
| VInt (n : Z)
| VBool (b : bool).

Definition type_of (v : val) : ty :=
  match v with
  | VInt _ => Integer
  | VBool _ => Boolean
  end.

Fixpoint big_endian (width : nat) (n : Z) : bytes :=
  match width with
  | O => []
  | S w => byte.of_Z (n / 256 ^ Z.of_nat w) :: big_endian w (n mod 256 ^ Z.of_nat w)
  end.

Definition EncodeInt (n : Z) : bytes := big_endian 8 (n + 2 ^ 63).

Definition complement (b : bytes) : bytes :=
  map (fun x => byte.of_Z (255 - byte.unsigned x)) b.

Definition encode_asc (v : val) : bytes :=
  match v with
  | VInt n => Byte.x20 :: EncodeInt n
  | VBool false => [Byte.x10]
  | VBool true => [Byte.x11]
  end.

Definition EncodeValue (desc : bool) (v : val) : result bytes :=
  Ok (if desc then complement (encode_asc v) else encode_asc v).

#[export] Instance codec : Codec := {
  Value := val;
  ValueType := ty;
  TypeOf := type_of;
  MinEnctype := fun t => match t with Integer => Byte.x1f | Boolean => Byte.x0f end;
  MaxEnctype := fun t => match t with Integer => Byte.x21 | Boolean => Byte.x12 end;
  MinEnctypeDesc := fun t => match t with Integer => Byte.xde | Boolean => Byte.xed end;
  MaxEnctypeDesc := fun t => match t with Integer => Byte.xe0 | Boolean => Byte.xf0 end;
  EncodeInt := EncodeInt;
  EncodeValue := EncodeValue
}.

(** Trees and keys of the end-to-end scenarios: namespace 12 all
    ascending, namespace 11 with component 0 descending. *)
Definition t_asc : Tree := mkTree 12 0.
Definition t_desc : Tree := mkTree 11 (2 ^ 63).

Definition k_empty : Key := NewKey [].
Definition k_1 : Key := NewKey [VInt 1].
Definition k_1_10 : Key := NewKey [VInt 1; VInt 10].
Definition k_1_20 : Key := NewKey [VInt 1; VInt 20].
Definition k_2_5 : Key := NewKey [VInt 2; VInt 5].

Definition put (t : Tree) (k : Key) (v : bytes) (s : mem.store) : mem.store :=
  fst (@Put codec mem.store mem.session t k v s).

(** The three rows of the composite-range scenarios. *)
Definition s3 : mem.store :=
  put t_asc k_2_5 [Byte.x63] (put t_asc k_1_20 [Byte.x62] (put t_asc k_1_10 [Byte.x61] [])).

(** A callback that records the values it is handed and fails on the
    value [stop]. *)
Definition record_until (stop : bytes) : callback (list (option bytes)) :=
  fun seen _ v =>
    if match v with Some b => bytes_eqb b stop | None => false end
    then (seen ++ [v], Some (ErrOther "stop"))
    else (seen ++ [v], None).

(** A callback that records the values it is handed and never fails. *)
Definition record : callback (list (option bytes)) :=
  fun seen _ v => (seen ++ [v], None).

(** The three rows of the descending scenario. *)
Definition s2 : mem.store :=
  put t_desc (NewKey [VInt 3]) [Byte.x33]
    (put t_desc (NewKey [VInt 2]) [Byte.x32] (put t_desc (NewKey [VInt 1]) [Byte.x31] [])).

(** A read-only session whose iterator fails to read the value at its
    second position and reports a terminal error. *)
Definition flaky_iterator : engine.Iterator :=
  engine.mkIterator
    [([Byte.x01], Ok [Byte.x61]); ([Byte.x02], Err (ErrOther "read")); ([Byte.x03], Ok [Byte.x63])]
    (-1) (Some (ErrOther "terminal")) 0.

#[export] Instance flaky : engine.Session unit := {
  engine.Insert := fun s _ _ => (s, Some (ErrOther "read-only"));
  engine.Put := fun s _ _ => (s, Some (ErrOther "read-only"));
  engine.Get := fun _ _ => Err ErrKeyNotFound;
  engine.Exists := fun _ _ => Ok false;
  engine.Delete := fun s _ => (s, Some (ErrOther "read-only"));
  engine.DeleteRange := fun s _ _ => (s, Some (ErrOther "read-only"));
  engine.NewIterator := fun _ _ => Ok flaky_iterator
}.

(** A table for the conflict actions: the rows by key. *)
Definition table : Type := list (bytes * string).

Definition Replace (t : table) (key : bytes) (d : string) : table * option error :=
  match mem.lookup key (map (fun kd => (fst kd, [])) t) with
  | Some _ => (map (fun kd => if bytes_eqb key (fst kd) then (key, d) else kd) t, None)
  | None => (t, Some ErrKeyNotFound)
  end.

Definition GetPrimaryKey (t : table) : string := "id"%string.

End demo.

(* ------------------------------------------------------------------ *)
(** * Properties *)

(** ** Machine integers *)

Lemma wrap_int64_small (z : Z) : is_int64 z -> wrap_int64 z = z.
Proof.
  unfold is_int64, MinInt64, MaxInt64, wrap_int64. intros H.
  rewrite Z.mod_small by lia. lia.
Qed.

Lemma wrap_int64_range (z : Z) : is_int64 (wrap_int64 z).
Proof.
  unfold is_int64, MinInt64, MaxInt64, wrap_int64.
  pose proof (Z.mod_pos_bound (z + 2 ^ 63) (2 ^ 64) ltac:(lia)). lia.
Qed.

Lemma wrap_int64_succ_max : wrap_int64 (MaxInt64 + 1) = MinInt64.
Proof. reflexivity. Qed.

Lemma shl_uint64_one (s : Z) :
  0 <= s <= 63 -> shl_uint64 1 s = Ok (2 ^ s).
Proof.
  intros H. unfold shl_uint64, wrap_uint64.
  destruct (Z.ltb_spec s 0); [lia|].
  rewrite Z.shiftl_1_l. f_equal. apply Z.mod_small.
  split; [apply Z.pow_nonneg; lia|].
  apply Z.pow_lt_mono_r; lia.
Qed.

Lemma shl_uint64_one_overflow (s : Z) :
  64 <= s -> shl_uint64 1 s = Ok 0.
Proof.
  intros H. unfold shl_uint64, wrap_uint64.
  destruct (Z.ltb_spec s 0); [lia|].
  rewrite Z.shiftl_1_l. f_equal.
  replace s with (64 + (s - 64)) by lia.
  rewrite Z.pow_add_r, Z.mul_comm by lia.
  apply Z.mod_mul. lia.
Qed.

(** The bit of a one-bit mask, shifted back down. *)
Lemma land_pow2_shiftr (o k : Z) :
  0 <= k -> Z.shiftr (Z.land o (2 ^ k)) k = Z.b2z (Z.testbit o k).
Proof.
  intros Hk.
  rewrite Z.shiftr_land, <- Z.shiftl_1_l, Z.shiftr_shiftl_l by lia.
  rewrite Z.sub_diag, Z.shiftl_0_r.
  change 1 with (Z.ones 1). rewrite Z.land_ones by lia.
  rewrite <- Z.bit0_mod, Z.shiftr_spec by lia. reflexivity.
Qed.

(** ** SortOrder *)

(** Bit 63 is component 0, bit 62 component 1, and so on. *)
Lemma IsDesc_bit (o : SortOrder) (i : Z) :
  0 <= i <= 63 -> IsDesc o i = Ok (Z.testbit o (63 - i)).
Proof.
  intros H. unfold IsDesc.
  destruct (Z.gtb_spec i 63); [lia|].
  rewrite wrap_int64_small by (unfold is_int64, MinInt64, MaxInt64; lia).
  rewrite shl_uint64_one by lia. cbn [bind].
  unfold shr_uint64. destruct (Z.ltb_spec (63 - i) 0); [lia|]. cbn [bind].
  rewrite land_pow2_shiftr by lia.
  destruct (Z.testbit o (63 - i)); reflexivity.
Qed.

Lemma SetDesc_bit (o : SortOrder) (i : Z) :
  0 <= i <= 63 -> SetDesc o i = Ok (Z.lor o (2 ^ (63 - i))).
Proof.
  intros H. unfold SetDesc.
  destruct (Z.gtb_spec i 63); [lia|].
  rewrite wrap_int64_small by (unfold is_int64, MinInt64, MaxInt64; lia).
  rewrite shl_uint64_one by lia. reflexivity.
Qed.

Lemma SetAsc_bit (o : SortOrder) (i : Z) :
  0 <= i <= 63 -> SetAsc o i = Ok (Z.land o (Z.lnot (2 ^ (63 - i)))).
Proof.
  intros H. unfold SetAsc.
  destruct (Z.gtb_spec i 63); [lia|].
  rewrite wrap_int64_small by (unfold is_int64, MinInt64, MaxInt64; lia).
  rewrite shl_uint64_one by lia. reflexivity.
Qed.

Lemma IsDesc_minus_one (o : SortOrder) : IsDesc o (-1) = Ok false.
Proof.
  unfold IsDesc. cbn [Z.gtb Z.compare].
  change (wrap_int64 (63 - -1)) with 64.
  rewrite shl_uint64_one_overflow by lia. cbn [bind].
  rewrite Z.land_0_r. reflexivity.
Qed.

(** ** The order of byte strings *)

Lemma bytes_compare_refl (a : bytes) : bytes_compare a a = Eq.
Proof.
  induction a as [|x a IH]; simpl; [reflexivity|].
  rewrite Z.compare_refl. exact IH.
Qed.

Lemma bytes_compare_eq (a b : bytes) : bytes_compare a b = Eq -> a = b.
Proof.
  revert b. induction a as [|x a IH]; intros [|y b]; simpl; try discriminate; auto.
  destruct (Z.compare_spec (byte.unsigned x) (byte.unsigned y)) as [E| |];
    try discriminate.
  intros H. apply byte.unsigned_inj in E. subst y. f_equal. auto.
Qed.

Lemma bytes_compare_antisym (a b : bytes) :
  bytes_compare b a = CompOpp (bytes_compare a b).
Proof.
  revert b. induction a as [|x a IH]; intros [|y b]; simpl; try reflexivity.
  rewrite (Z.compare_antisym (byte.unsigned x) (byte.unsigned y)).
  destruct (byte.unsigned x ?= byte.unsigned y); simpl; auto.
Qed.

Lemma bytes_lt_trans (a b c : bytes) :
  bytes_compare a b = Lt -> bytes_compare b c = Lt -> bytes_compare a c = Lt.
Proof.
  revert b c. induction a as [|x a IH]; intros [|y b] [|z c]; simpl;
    try discriminate; auto.
  destruct (Z.compare_spec (byte.unsigned x) (byte.unsigned y)) as [E|L|G];
    destruct (Z.compare_spec (byte.unsigned y) (byte.unsigned z)) as [E'|L'|G'];
    try discriminate; intros H1 H2.
  - rewrite E, E', Z.compare_refl. eauto.
  - rewrite E. apply Z.compare_lt_iff in L'. rewrite L'. reflexivity.
  - rewrite <- E'. apply Z.compare_lt_iff in L. rewrite L. reflexivity.
  - assert (L2 : byte.unsigned x < byte.unsigned z) by lia.
    apply Z.compare_lt_iff in L2. rewrite L2. reflexivity.
Qed.

Lemma bytes_eqb_eq (a b : bytes) : bytes_eqb a b = true <-> a = b.
Proof.
  unfold bytes_eqb. split.
  - destruct (bytes_compare a b) eqn:E; try discriminate.
    intros _. now apply bytes_compare_eq.
  - intros ->. now rewrite bytes_compare_refl.
Qed.

Lemma bytes_eqb_refl (a : bytes) : bytes_eqb a a = true.
Proof. now apply bytes_eqb_eq. Qed.

Lemma bytes_leb_refl (a : bytes) : bytes_leb a a = true.
Proof. unfold bytes_leb. now rewrite bytes_compare_refl. Qed.

Lemma bytes_ltb_irrefl (a : bytes) : bytes_ltb a a = false.
Proof. unfold bytes_ltb. now rewrite bytes_compare_refl. Qed.

Lemma bytes_ltb_leb (a b : bytes) : bytes_ltb a b = true -> bytes_leb a b = true.
Proof. unfold bytes_ltb, bytes_leb. destruct (bytes_compare a b); auto. Qed.

Lemma bytes_ltb_antisym (a b : bytes) : bytes_ltb a b = negb (bytes_leb b a).
Proof.
  unfold bytes_ltb, bytes_leb. rewrite (bytes_compare_antisym a b).
  destruct (bytes_compare a b); reflexivity.
Qed.

Lemma bytes_ltb_trans (a b c : bytes) :
  bytes_ltb a b = true -> bytes_ltb b c = true -> bytes_ltb a c = true.
Proof.
  unfold bytes_ltb.
  destruct (bytes_compare a b) eqn:E1; try discriminate.
  destruct (bytes_compare b c) eqn:E2; try discriminate.
  now rewrite (bytes_lt_trans a b c E1 E2).
Qed.

Lemma bytes_leb_ltb_trans (a b c : bytes) :
  bytes_leb a b = true -> bytes_ltb b c = true -> bytes_ltb a c = true.
Proof.
  unfold bytes_leb. destruct (bytes_compare a b) eqn:E; try discriminate; intros _ H.
  - apply bytes_compare_eq in E. now subst.
  - apply (bytes_ltb_trans a b c); auto. unfold bytes_ltb. now rewrite E.
Qed.

Lemma bytes_ltb_leb_trans (a b c : bytes) :
  bytes_ltb a b = true -> bytes_leb b c = true -> bytes_ltb a c = true.
Proof.
  intros H. unfold bytes_leb.
  destruct (bytes_compare b c) eqn:E; try discriminate; intros _.
  - apply bytes_compare_eq in E. now subst.
  - apply (bytes_ltb_trans a b c); auto. unfold bytes_ltb. now rewrite E.
Qed.

Lemma bytes_leb_trans (a b c : bytes) :
  bytes_leb a b = true -> bytes_leb b c = true -> bytes_leb a c = true.
Proof.
  intros H. unfold bytes_leb at 1.
  destruct (bytes_compare b c) eqn:E; try discriminate; intros _.
  - apply bytes_compare_eq in E. now subst.
  - apply bytes_ltb_leb, (bytes_leb_ltb_trans a b c); auto.
    unfold bytes_ltb. now rewrite E.
Qed.

Lemma bytes_compare_app (p a b : bytes) :
  bytes_compare (p ++ a) (p ++ b) = bytes_compare a b.
Proof.
  induction p as [|x p IH]; simpl; [reflexivity|].
  now rewrite Z.compare_refl.
Qed.

(** A byte string is below each of its proper extensions. *)
Lemma bytes_ltb_extend (a : bytes) (x : byte) (r : bytes) :
  bytes_ltb a (a ++ x :: r) = true.
Proof.
  unfold bytes_ltb.
  rewrite <- (app_nil_r a) at 1. rewrite bytes_compare_app. reflexivity.
Qed.

Lemma bytes_leb_prefix (a r : bytes) : bytes_leb a (a ++ r) = true.
Proof.
  destruct r as [|x r].
  - rewrite app_nil_r. apply bytes_leb_refl.
  - apply bytes_ltb_leb, bytes_ltb_extend.
Qed.

Lemma unsigned_xFF : byte.unsigned xFF = 255.
Proof. reflexivity. Qed.

(** An extension that does not start with 0xFF stays below the 0xFF
    suffix. *)
Lemma bytes_ltb_below_xFF (p r : bytes) :
  hd_error r <> Some xFF -> bytes_ltb (p ++ r) (p ++ [xFF]) = true.
Proof.
  intros H. unfold bytes_ltb. rewrite bytes_compare_app.
  destruct r as [|x r]; simpl; [reflexivity|].
  rewrite unsigned_xFF.
  destruct (Z.compare_spec (byte.unsigned x) 255) as [E|L|G].
  - exfalso. apply H. simpl. f_equal. apply byte.unsigned_inj.
    now rewrite unsigned_xFF.
  - reflexivity.
  - pose proof (byte.unsigned_range x). lia.
Qed.

(** ** SortOrder: which indexes are refused *)

(** C8, as the code has it. For every index [i > 63], [IsDesc], [SetDesc]
    and [SetAsc] panic; for every [i] in [[0, 63]] they complete without
    failing, and the zero [SortOrder] answers [IsDesc(i) = false]. (The
    guard is [i > 63] alone: an index below 0 is not refused by it.) *)
Theorem SortOrder_index_guard (o : SortOrder) (i : Z) :
  (63 < i ->
     panics (IsDesc o i) /\ panics (SetDesc o i) /\ panics (SetAsc o i)) /\
  (0 <= i <= 63 ->
     completes (IsDesc o i) /\ completes (SetDesc o i) /\ completes (SetAsc o i) /\
     IsDesc 0 i = Ok false).
Proof.
  split; intros H.
  - unfold IsDesc, SetDesc, SetAsc, panics.
    destruct (Z.gtb_spec i 63); [|lia].
    repeat apply conj; eexists; reflexivity.
  - rewrite (IsDesc_bit o), (IsDesc_bit 0), SetDesc_bit, SetAsc_bit by lia.
    rewrite Z.testbit_0_l. unfold completes.
    repeat apply conj; try reflexivity; eexists; reflexivity.
Qed.

Lemma SortOrder_index_guard_witness :
  (panics (IsDesc 5 64) /\ panics (SetDesc 5 64) /\ panics (SetAsc 5 64)) /\
  (completes (IsDesc 5 3) /\ completes (SetDesc 5 3) /\ completes (SetAsc 5 3) /\
   IsDesc 0 3 = Ok false).
Proof.
  split.
  - apply (proj1 (SortOrder_index_guard 5 64)). lia.
  - apply (proj2 (SortOrder_index_guard 5 3)). lia.
Defined.

(** C8 as stated fails: the index -1 is outside [[0, 63]] and none of the
    three operations panics on it. *)
Lemma SortOrder_negative_index_accepted :
  IsDesc 0 (-1) = Ok false /\ SetDesc 0 (-1) = Ok 0 /\ SetAsc 0 (-1) = Ok 0 /\
  ~ (forall (o : SortOrder) (i : Z), ~ (0 <= i <= 63) ->
       panics (IsDesc o i) /\ panics (SetDesc o i) /\ panics (SetAsc o i)).
Proof.
  repeat split; try reflexivity.
  intros H. destruct (H 0 (-1) ltac:(lia)) as [[msg E] _].
  rewrite IsDesc_minus_one in E. discriminate.
Qed.

(** ** The direction of a range *)

Section Direction.

Context {codec : Codec}.

Lemma isDescRange_last_component (t : Tree) (rng : Range) (k : Key) :
  Min rng = Some k \/ (Min rng = None /\ Max rng = Some k) ->
  isDescRange t rng = IsDesc (Order t) (last_index (values k)).
Proof.
  unfold isDescRange. intros [-> | [-> ->]]; reflexivity.
Qed.

(** C2. The direction of a range is that of the last component of [Min]
    if [Min] is present, else that of the last component of [Max] if [Max]
    is present, else ascending; when it is descending, [IterateOnRange]
    opens its iterator on the boundaries synthesized with the roles of
    [Min] and [Max] swapped, and unswapped when it is ascending. *)
Theorem range_direction (t : Tree) (rng : Range) :
  (forall k, Min rng = Some k ->
     isDescRange t rng = IsDesc (Order t) (last_index (values k))) /\
  (forall k, Min rng = None -> Max rng = Some k ->
     isDescRange t rng = IsDesc (Order t) (last_index (values k))) /\
  (Min rng = None -> Max rng = None -> isDescRange t rng = Ok false) /\
  (forall k, Min rng = Some k \/ (Min rng = None /\ Max rng = Some k) ->
     1 <= Z.of_nat (length (values k)) <= 64 ->
     isDescRange t rng = Ok (component_desc (Order t) (last_index (values k)))) /\
  (forall (S : Type) (session : engine.Session S) (A : Type) reverse
          (fn : callback A) a (s : S) desc start end_,
     isDescRange t rng = Ok desc ->
     (if negb (Exclusive rng)
      then buildInclusiveBoundaries t
             (if desc then Max rng else Min rng) (if desc then Min rng else Max rng) desc
      else buildExclusiveBoundaries t
             (if desc then Max rng else Min rng) (if desc then Min rng else Max rng) desc)
     = Ok (start, end_) ->
     IterateOnRange t (Some rng) reverse fn a s
     = iterate (engine.NewIterator s (engine.mkIterOptions start end_)) reverse fn a).
Proof.
  split; [|split; [|split; [|split]]].
  - intros k H. apply isDescRange_last_component. auto.
  - intros k H1 H2. apply isDescRange_last_component. auto.
  - unfold isDescRange. intros -> ->. reflexivity.
  - intros k Hk Hn. rewrite (isDescRange_last_component t rng k Hk).
    unfold last_index, component_desc. apply IsDesc_bit. lia.
  - intros S session A reverse fn a s desc start end_ Hd Hb.
    unfold IterateOnRange, boundaries. rewrite Hd. cbn [bind].
    destruct desc; cbn [negb]; cbn [negb] in Hb; rewrite Hb; reflexivity.
Qed.

(** C10, the part that holds. [IsDesc(-1)] is [false], without a panic;
    so for a range whose [Min] - or, [Min] being absent, whose [Max] - has
    no component the direction test answers ascending, and boundary
    synthesis is entered with [Min] and [Max] unswapped. *)
Theorem zero_component_direction (t : Tree) (rng : Range) (k : Key) :
  values k = [] ->
  Min rng = Some k \/ (Min rng = None /\ Max rng = Some k) ->
  IsDesc (Order t) (-1) = Ok false /\
  isDescRange t rng = Ok false /\
  boundaries t rng =
    (if negb (Exclusive rng)
     then buildInclusiveBoundaries t (Min rng) (Max rng) false
     else buildExclusiveBoundaries t (Min rng) (Max rng) false).
Proof.
  intros Hv Hk.
  assert (Hd : isDescRange t rng = Ok false).
  { rewrite (isDescRange_last_component t rng k Hk), Hv.
    apply IsDesc_minus_one. }
  split; [apply IsDesc_minus_one|]. split; [exact Hd|].
  unfold boundaries. rewrite Hd. reflexivity.
Qed.

End Direction.

(** *** The direction theorems on the small codec *)

Section DirectionChecks.

#[local] Existing Instance demo.codec.
#[local] Existing Instance mem.session.

Lemma range_direction_witness :
  isDescRange demo.t_desc (mkRange (Some demo.k_1) None false) = Ok true /\
  IterateOnRange demo.t_desc (Some (mkRange (Some demo.k_1) None false)) false
    (in_use 11) tt ([] : mem.store)
  = iterate (engine.NewIterator ([] : mem.store)
               (engine.mkIterOptions
                  (demo.EncodeInt 11 ++ [Byte.xde])
                  (demo.EncodeInt 11 ++ demo.complement (Byte.x20 :: demo.EncodeInt 1) ++ [xFF])))
      false (in_use 11) tt.
Proof.
  pose proof (range_direction demo.t_desc (mkRange (Some demo.k_1) None false)) as H.
  split.
  - apply (proj1 (proj2 (proj2 (proj2 H))) demo.k_1).
    + left. reflexivity.
    + simpl. lia.
  - apply (proj2 (proj2 (proj2 (proj2 H))) _ _ _ _ _ _ _ true).
    + vm_compute. reflexivity.
    + vm_compute. reflexivity.
Defined.

Lemma zero_component_direction_witness :
  IsDesc (Order demo.t_desc) (-1) = Ok false /\
  isDescRange demo.t_desc (mkRange (Some demo.k_empty) (Some demo.k_1) false) = Ok false /\
  boundaries demo.t_desc (mkRange (Some demo.k_empty) (Some demo.k_1) false)
  = buildInclusiveBoundaries demo.t_desc (Some demo.k_empty) (Some demo.k_1) false.
Proof.
  apply (zero_component_direction demo.t_desc
           (mkRange (Some demo.k_empty) (Some demo.k_1) false) demo.k_empty).
  - reflexivity.
  - left. reflexivity.
Defined.

(** C10 as stated fails where the other bound is absent: the walk is not
    reached, boundary synthesis panics on the slice [values[:len-1]] of the
    key without components. *)
Lemma zero_component_range_panics :
  isDescRange demo.t_asc (mkRange None (Some demo.k_empty) false) = Ok false /\
  ret (IterateOnRange demo.t_asc (Some (mkRange None (Some demo.k_empty) false)) false
         (in_use 12) tt ([] : mem.store))
  = Panic "slice bounds out of range [:-1]" /\
  isDescRange demo.t_asc (mkRange (Some demo.k_empty) None false) = Ok false /\
  ret (IterateOnRange demo.t_asc (Some (mkRange (Some demo.k_empty) None false)) false
         (in_use 12) tt ([] : mem.store))
  = Panic "slice bounds out of range [:-1]".
Proof. repeat split; reflexivity. Qed.

End DirectionChecks.

(** ** Boundary synthesis *)

Section Boundaries.

Context {codec : Codec}.

Lemma in_range_inclusive (bmin bmax : bytes) :
  bytes_leb bmin bmax = true ->
  in_range bmin (bmax ++ [xFF]) bmin = true /\
  in_range bmin (bmax ++ [xFF]) bmax = true.
Proof.
  intros H. unfold in_range.
  rewrite bytes_leb_refl, H, bytes_ltb_extend.
  rewrite (bytes_leb_ltb_trans bmin bmax (bmax ++ [xFF]) H (bytes_ltb_extend _ _ _)).
  auto.
Qed.

Lemma in_range_exclusive (bmin bmax : bytes) :
  in_range (bmin ++ [xFF]) bmax bmin = false /\
  in_range (bmin ++ [xFF]) bmax bmax = false.
Proof.
  unfold in_range. split.
  - assert (H : bytes_leb (bmin ++ [xFF]) bmin = false).
    { pose proof (bytes_ltb_antisym bmin (bmin ++ [xFF])) as A.
      rewrite bytes_ltb_extend in A. now destruct (bytes_leb (bmin ++ [xFF]) bmin). }
    now rewrite H.
  - rewrite bytes_ltb_irrefl. apply andb_false_r.
Qed.

(** The builders on a present key [k] with encoding [b]: the inclusive
    lower bound is [b], the exclusive lower bound [b ++ [0xFF]], the
    inclusive upper bound [b ++ [0xFF]] and the exclusive upper bound
    [b], whatever the direction and whatever the other bound; with the
    byte facts on the endpoints. *)
Lemma present_bound_builders (t : Tree) (kmin kmax : Key) (desc : bool) (bmin bmax : bytes) :
  Encode kmin (Namespace_ t) (Order t) = Ok bmin ->
  Encode kmax (Namespace_ t) (Order t) = Ok bmax ->
  buildStartKeyInclusive t kmin desc = Ok bmin /\
  buildStartKeyExclusive t kmin desc = Ok (bmin ++ [xFF]) /\
  buildEndKeyInclusive t kmax desc = Ok (bmax ++ [xFF]) /\
  buildEndKeyExclusive t kmax desc = Ok bmax /\
  (forall max,
     buildInclusiveBoundaries t (Some kmin) max desc
     = (end_ <- match max with
                | None => buildMaxKeyForType t (Some kmin) desc
                | Some k => buildEndKeyInclusive t k desc
                end ;; Ok (bmin, end_)) /\
     buildExclusiveBoundaries t (Some kmin) max desc
     = (end_ <- match max with
                | None => buildMaxKeyForType t (Some kmin) desc
                | Some k => buildEndKeyExclusive t k desc
                end ;; Ok (bmin ++ [xFF], end_))) /\
  (forall min start,
     match min with
     | None => buildMinKeyForType t (Some kmax) desc
     | Some k => buildStartKeyInclusive t k desc
     end = Ok start ->
     buildInclusiveBoundaries t min (Some kmax) desc = Ok (start, bmax ++ [xFF])) /\
  (forall min start,
     match min with
     | None => buildMinKeyForType t (Some kmax) desc
     | Some k => buildStartKeyExclusive t k desc
     end = Ok start ->
     buildExclusiveBoundaries t min (Some kmax) desc = Ok (start, bmax)) /\
  buildInclusiveBoundaries t (Some kmin) (Some kmax) desc = Ok (bmin, bmax ++ [xFF]) /\
  buildExclusiveBoundaries t (Some kmin) (Some kmax) desc = Ok (bmin ++ [xFF], bmax) /\
  (bytes_leb bmin bmax = true ->
     in_range bmin (bmax ++ [xFF]) bmin = true /\
     in_range bmin (bmax ++ [xFF]) bmax = true) /\
  in_range (bmin ++ [xFF]) bmax bmin = false /\
  in_range (bmin ++ [xFF]) bmax bmax = false.
Proof.
  intros Hmin Hmax.
  unfold buildInclusiveBoundaries, buildExclusiveBoundaries,
    buildStartKeyInclusive, buildStartKeyExclusive,
    buildEndKeyInclusive, buildEndKeyExclusive.
  rewrite Hmin, Hmax. cbn [bind].
  repeat apply conj; try reflexivity.
  - intros max. split; destruct max; reflexivity.
  - intros min start H. rewrite H. reflexivity.
  - intros min start H. rewrite H. reflexivity.
  - apply in_range_inclusive.
  - apply in_range_exclusive.
  - apply in_range_exclusive.
Qed.

(** The sentinel tag a direction selects. *)
Lemma removelast_snoc {A : Type} (l : list A) (x : A) : removelast (l ++ [x]) = l.
Proof. apply removelast_last. Qed.

Lemma index_snoc {A : Type} (l : list A) (x : A) :
  index (l ++ [x]) (last_index (l ++ [x])) = Ok x.
Proof.
  unfold index, last_index. rewrite length_app. simpl.
  destruct (Z.ltb_spec (Z.of_nat (length l + 1) - 1) 0); [lia|].
  replace (Z.to_nat (Z.of_nat (length l + 1) - 1)) with (length l) by lia.
  rewrite nth_error_app2, Nat.sub_diag by lia. reflexivity.
Qed.

Lemma buildMinKeyForType_one (t : Tree) (k : Key) (v : Value) (desc : bool) :
  values k = [v] ->
  buildMinKeyForType t (Some k) desc
  = Ok (EncodeInt (int64_of_ns (Namespace_ t))
          ++ [if desc then MinEnctypeDesc (TypeOf v) else MinEnctype (TypeOf v)]).
Proof.
  intros H. unfold buildMinKeyForType. rewrite H. simpl. now destruct desc.
Qed.

Lemma buildMaxKeyForType_one (t : Tree) (k : Key) (v : Value) (desc : bool) :
  values k = [v] ->
  buildMaxKeyForType t (Some k) desc
  = Ok (EncodeInt (int64_of_ns (Namespace_ t))
          ++ [if desc then MaxEnctypeDesc (TypeOf v) else MaxEnctype (TypeOf v)]).
Proof.
  intros H. unfold buildMaxKeyForType. rewrite H. simpl. now destruct desc.
Qed.

Lemma buildMinKeyForType_many (t : Tree) (k : Key) (pre : list Value) (v : Value)
  (desc : bool) (buf : bytes) :
  values k = pre ++ [v] -> pre <> [] ->
  Encode (NewKey pre) (Namespace_ t) (Order t) = Ok buf ->
  buildMinKeyForType t (Some k) desc
  = Ok (buf ++ [if desc then MinEnctypeDesc (TypeOf v) else MinEnctype (TypeOf v)]).
Proof.
  intros H Hpre Hbuf. unfold buildMinKeyForType. rewrite H.
  assert (Hlen : (Z.of_nat (length (pre ++ [v])) =? 1) = false).
  { apply Z.eqb_neq. rewrite length_app. destruct pre; [congruence|]. simpl. lia. }
  rewrite Hlen. unfold slice_but_last.
  assert (Hneg : (last_index (pre ++ [v]) <? 0) = false).
  { apply Z.ltb_ge. unfold last_index. rewrite length_app. simpl. lia. }
  rewrite Hneg. cbn [bind]. rewrite removelast_snoc, Hbuf. cbn [bind].
  rewrite index_snoc. cbn [bind]. now destruct desc.
Qed.

Lemma buildMaxKeyForType_many (t : Tree) (k : Key) (pre : list Value) (v : Value)
  (desc : bool) (buf : bytes) :
  values k = pre ++ [v] -> pre <> [] ->
  Encode (NewKey pre) (Namespace_ t) (Order t) = Ok buf ->
  buildMaxKeyForType t (Some k) desc
  = Ok (buf ++ [if desc then MaxEnctypeDesc (TypeOf v) else MaxEnctype (TypeOf v)]).
Proof.
  intros H Hpre Hbuf. unfold buildMaxKeyForType. rewrite H.
  assert (Hlen : (Z.of_nat (length (pre ++ [v])) =? 1) = false).
  { apply Z.eqb_neq. rewrite length_app. destruct pre; [congruence|]. simpl. lia. }
  rewrite Hlen. unfold slice_but_last.
  assert (Hneg : (last_index (pre ++ [v]) <? 0) = false).
  { apply Z.ltb_ge. unfold last_index. rewrite length_app. simpl. lia. }
  rewrite Hneg. cbn [bind]. rewrite removelast_snoc, Hbuf. cbn [bind].
  rewrite index_snoc. cbn [bind]. now destruct desc.
Qed.

(** The builders with one bound absent, the other a key [k] (encoding
    [b]), for a given direction: the open bound is [EncodeInt(namespace)]
    or the encoding of the first [n-1] components, followed by the Min
    (resp. Max) sentinel tag of the type of the last component. *)
Lemma open_bound_builders (t : Tree) (k : Key) (desc : bool) (b : bytes) :
  Encode k (Namespace_ t) (Order t) = Ok b ->
  (forall v, values k = [v] ->
     let lo := EncodeInt (int64_of_ns (Namespace_ t)) ++ [min_sentinel desc (TypeOf v)] in
     let hi := EncodeInt (int64_of_ns (Namespace_ t)) ++ [max_sentinel desc (TypeOf v)] in
     buildMinKeyForType t (Some k) desc = Ok lo /\
     buildMaxKeyForType t (Some k) desc = Ok hi /\
     buildInclusiveBoundaries t None (Some k) desc = Ok (lo, b ++ [xFF]) /\
     buildInclusiveBoundaries t (Some k) None desc = Ok (b, hi) /\
     buildExclusiveBoundaries t None (Some k) desc = Ok (lo, b) /\
     buildExclusiveBoundaries t (Some k) None desc = Ok (b ++ [xFF], hi)) /\
  (forall pre v buf, values k = pre ++ [v] -> pre <> [] ->
     Encode (NewKey pre) (Namespace_ t) (Order t) = Ok buf ->
     let lo := buf ++ [min_sentinel desc (TypeOf v)] in
     let hi := buf ++ [max_sentinel desc (TypeOf v)] in
     buildMinKeyForType t (Some k) desc = Ok lo /\
     buildMaxKeyForType t (Some k) desc = Ok hi /\
     buildInclusiveBoundaries t None (Some k) desc = Ok (lo, b ++ [xFF]) /\
     buildInclusiveBoundaries t (Some k) None desc = Ok (b, hi) /\
     buildExclusiveBoundaries t None (Some k) desc = Ok (lo, b) /\
     buildExclusiveBoundaries t (Some k) None desc = Ok (b ++ [xFF], hi)).
Proof.
  intros Hb. split.
  - intros v Hv lo hi.
    pose proof (buildMinKeyForType_one t k v desc Hv) as Hlo.
    pose proof (buildMaxKeyForType_one t k v desc Hv) as Hhi.
    unfold buildInclusiveBoundaries, buildExclusiveBoundaries,
      buildStartKeyInclusive, buildStartKeyExclusive,
      buildEndKeyInclusive, buildEndKeyExclusive.
    rewrite Hlo, Hhi, Hb. repeat apply conj; reflexivity.
  - intros pre v buf Hv Hpre Hbuf lo hi.
    pose proof (buildMinKeyForType_many t k pre v desc buf Hv Hpre Hbuf) as Hlo.
    pose proof (buildMaxKeyForType_many t k pre v desc buf Hv Hpre Hbuf) as Hhi.
    unfold buildInclusiveBoundaries, buildExclusiveBoundaries,
      buildStartKeyInclusive, buildStartKeyExclusive,
      buildEndKeyInclusive, buildEndKeyExclusive.
    rewrite Hlo, Hhi, Hb. repeat apply conj; reflexivity.
Qed.

End Boundaries.

(** *** Boundary synthesis on the small codec *)

Section BoundaryChecks.

#[local] Existing Instance demo.codec.

Lemma present_bound_builders_demo :
  buildInclusiveBoundaries demo.t_asc (Some demo.k_1_10) (Some demo.k_1_20) false
  = Ok (demo.EncodeInt 12 ++ [Byte.x20] ++ demo.EncodeInt 1 ++ [Byte.x20] ++ demo.EncodeInt 10,
        (demo.EncodeInt 12 ++ [Byte.x20] ++ demo.EncodeInt 1 ++ [Byte.x20] ++ demo.EncodeInt 20)
          ++ [xFF]) /\
  buildExclusiveBoundaries demo.t_asc (Some demo.k_1_10) (Some demo.k_1_20) false
  = Ok ((demo.EncodeInt 12 ++ [Byte.x20] ++ demo.EncodeInt 1 ++ [Byte.x20] ++ demo.EncodeInt 10)
          ++ [xFF],
        demo.EncodeInt 12 ++ [Byte.x20] ++ demo.EncodeInt 1 ++ [Byte.x20] ++ demo.EncodeInt 20).
Proof.
  pose proof (present_bound_builders demo.t_asc demo.k_1_10 demo.k_1_20 false
                (demo.EncodeInt 12 ++ [Byte.x20] ++ demo.EncodeInt 1
                   ++ [Byte.x20] ++ demo.EncodeInt 10)
                (demo.EncodeInt 12 ++ [Byte.x20] ++ demo.EncodeInt 1
                   ++ [Byte.x20] ++ demo.EncodeInt 20)
                ltac:(vm_compute; reflexivity) ltac:(vm_compute; reflexivity)) as H.
  split; apply H.
Defined.

Lemma open_bound_builders_demo :
  buildInclusiveBoundaries demo.t_asc (Some demo.k_1) None false
  = Ok (demo.EncodeInt 12 ++ [Byte.x20] ++ demo.EncodeInt 1,
        demo.EncodeInt 12 ++ [Byte.x21]) /\
  buildInclusiveBoundaries demo.t_desc None (Some demo.k_1) true
  = Ok (demo.EncodeInt 11 ++ [Byte.xde],
        (demo.EncodeInt 11 ++ demo.complement (Byte.x20 :: demo.EncodeInt 1)) ++ [xFF]) /\
  buildInclusiveBoundaries demo.t_asc (Some demo.k_1_10) None false
  = Ok (demo.EncodeInt 12 ++ [Byte.x20] ++ demo.EncodeInt 1 ++ [Byte.x20] ++ demo.EncodeInt 10,
        (demo.EncodeInt 12 ++ [Byte.x20] ++ demo.EncodeInt 1) ++ [Byte.x21]).
Proof.
  split; [|split].
  - apply (proj1 (open_bound_builders demo.t_asc demo.k_1 false
                    (demo.EncodeInt 12 ++ [Byte.x20] ++ demo.EncodeInt 1)
                    ltac:(vm_compute; reflexivity)) (demo.VInt 1) eq_refl).
  - apply (proj1 (open_bound_builders demo.t_desc demo.k_1 true
                    (demo.EncodeInt 11 ++ demo.complement (Byte.x20 :: demo.EncodeInt 1))
                    ltac:(vm_compute; reflexivity)) (demo.VInt 1) eq_refl).
  - apply (proj2 (open_bound_builders demo.t_asc demo.k_1_10 false
                    (demo.EncodeInt 12 ++ [Byte.x20] ++ demo.EncodeInt 1
                       ++ [Byte.x20] ++ demo.EncodeInt 10)
                    ltac:(vm_compute; reflexivity))
             [demo.VInt 1] (demo.VInt 10)
             (demo.EncodeInt 12 ++ [Byte.x20] ++ demo.EncodeInt 1)
             eq_refl ltac:(discriminate) ltac:(vm_compute; reflexivity)).
Defined.

End BoundaryChecks.

(** ** The in-memory session *)

Lemma lookup_upsert (k v : bytes) (s : mem.store) :
  mem.lookup k (mem.upsert k v s) = Some v.
Proof.
  induction s as [|[k' v'] s IH]; simpl.
  - now rewrite bytes_eqb_refl.
  - destruct (bytes_compare k k') eqn:E; simpl.
    + now rewrite bytes_eqb_refl.
    + now rewrite bytes_eqb_refl.
    + unfold bytes_eqb. rewrite E. exact IH.
Qed.

Lemma lookup_upsert_other (k k0 v : bytes) (s : mem.store) :
  k0 <> k -> mem.lookup k0 (mem.upsert k v s) = mem.lookup k0 s.
Proof.
  intros Hne.
  assert (Hk : bytes_eqb k0 k = false).
  { destruct (bytes_eqb k0 k) eqn:E; [|reflexivity].
    apply bytes_eqb_eq in E. contradiction. }
  induction s as [|[k' v'] s IH]; simpl.
  - now rewrite Hk.
  - destruct (bytes_compare k k') eqn:E; simpl.
    + apply bytes_compare_eq in E. subst k'. now rewrite Hk.
    + now rewrite Hk.
    + now rewrite IH.
Qed.

(** The law of [Put] then [Get], on the in-memory session. *)
Lemma mem_get_put (s : mem.store) (k v : bytes) :
  @engine.Get _ mem.session (fst (@engine.Put _ mem.session s k v)) k = Ok v.
Proof. simpl. unfold mem.Get. now rewrite lookup_upsert. Qed.

Lemma lookup_filter (p : bytes -> bool) (k : bytes) (s : mem.store) :
  mem.lookup k (filter (fun kv => p (fst kv)) s)
  = if p k then mem.lookup k s else None.
Proof.
  induction s as [|[k' v'] s IH]; simpl.
  - now destruct (p k).
  - destruct (bytes_eqb k k') eqn:E.
    + apply bytes_eqb_eq in E. subst k'.
      destruct (p k) eqn:P; simpl.
      * now rewrite bytes_eqb_refl.
      * rewrite IH. reflexivity.
    + destruct (p k'); simpl; [rewrite E|]; exact IH.
Qed.

Lemma lookup_outside (lo hi k : bytes) (s : mem.store) :
  mem.lookup k (mem.outside lo hi s)
  = if in_range lo hi k then None else mem.lookup k s.
Proof.
  unfold mem.outside.
  rewrite (lookup_filter (fun k => negb (in_range lo hi k))).
  now destruct (in_range lo hi k).
Qed.

Lemma lookup_in (k v : bytes) (s : mem.store) :
  mem.lookup k s = Some v -> exists v', In (k, v') s.
Proof.
  induction s as [|[k' v'] s IH]; simpl; [discriminate|].
  destruct (bytes_eqb k k') eqn:E.
  - apply bytes_eqb_eq in E. subst k'. eauto.
  - intros H. destruct (IH H) as [w Hw]. eauto.
Qed.

Lemma in_lookup (k v : bytes) (s : mem.store) :
  In (k, v) s -> mem.lookup k s <> None.
Proof.
  induction s as [|[k' v'] s IH]; simpl; [tauto|].
  intros [E|H].
  - inversion E; subst. now rewrite bytes_eqb_refl.
  - destruct (bytes_eqb k k'); [discriminate|auto].
Qed.

(** ** Empty values *)

Section EmptyValue.

Context {codec : Codec} {S : Type} {session : engine.Session S}.

Lemma is_empty_value_spec (v : bytes) :
  is_empty_value v = true <-> (v = [] \/ exists r, v = x00 :: r).
Proof.
  destruct v as [|b r]; simpl.
  - split; auto.
  - split.
    + intros H. right. exists r. f_equal. now apply Byte.byte_dec_bl.
    + intros [H|[r' H]]; [discriminate|].
      inversion H; subst. reflexivity.
Qed.

(** C4. With a zero-length value [Insert] and [Put] hand the single byte
    0x00 to the session; [Get] returns no value (nil bytes, no error)
    exactly when the stored bytes are empty or start with 0x00, and the
    stored bytes verbatim otherwise; so on a session where [Get] reads
    what [Put] wrote, [Put(K, [])] then [Get(K)] returns no value. *)
Theorem empty_value_sentinel (t : Tree) (key : Key) (kb : bytes) (s : S) :
  Encode key (Namespace_ t) (Order t) = Ok kb ->
  Insert t key [] s = (let (s', e) := engine.Insert s kb [x00] in (s', of_error e)) /\
  Put t key [] s = (let (s', e) := engine.Put s kb [x00] in (s', of_error e)) /\
  (forall v, engine.Get s kb = Ok v ->
     (Get t key s = Ok None <-> (v = [] \/ exists r, v = x00 :: r)) /\
     (~ (v = [] \/ exists r, v = x00 :: r) -> Get t key s = Ok (Some v))) /\
  ((forall s0 k v, engine.Get (fst (engine.Put s0 k v)) k = Ok v) ->
   Get t key (fst (Put t key [] s)) = Ok None).
Proof.
  intros Hk. unfold Insert, Put, Get. rewrite Hk. cbn [bind length Z.of_nat Z.eqb].
  split; [reflexivity|]. split; [reflexivity|]. split.
  - intros v Hv. rewrite Hv. cbn [bind].
    pose proof (is_empty_value_spec v) as Hspec.
    destruct (is_empty_value v); split.
    + split; [intros _; now apply Hspec | reflexivity].
    + intros Hn. exfalso. apply Hn. now apply Hspec.
    + split; [discriminate|]. intros H. apply Hspec in H. discriminate.
    + reflexivity.
  - intros Hlaw. specialize (Hlaw s kb defaultValue).
    destruct (engine.Put s kb defaultValue) as [s' e]. cbn [fst] in *.
    rewrite Hlaw. reflexivity.
Qed.

End EmptyValue.

Section EmptyValueChecks.

#[local] Existing Instance demo.codec.
#[local] Existing Instance mem.session.

Lemma empty_value_sentinel_witness :
  Put demo.t_asc demo.k_1 [] []
  = ([(demo.EncodeInt 12 ++ [Byte.x20] ++ demo.EncodeInt 1, [x00])], Ok tt) /\
  Get demo.t_asc demo.k_1 (fst (Put demo.t_asc demo.k_1 [] ([] : mem.store))) = Ok None.
Proof.
  pose proof (empty_value_sentinel demo.t_asc demo.k_1
                (demo.EncodeInt 12 ++ [Byte.x20] ++ demo.EncodeInt 1) ([] : mem.store)
                ltac:(vm_compute; reflexivity)) as H.
  split.
  - apply (proj1 (proj2 H)).
  - apply (proj2 (proj2 (proj2 H))). apply mem_get_put.
Defined.

End EmptyValueChecks.

(** ** The walk of IterateOnRange *)

Section Walk.

Context {codec : Codec} {A : Type}.
Variable fn : callback A.

Lemma same_source_refl (it : engine.Iterator) : same_source it it.
Proof. unfold same_source. auto. Qed.

Lemma same_source_seek (it it' : engine.Iterator) (p : Z) :
  same_source (engine.seek it p) it' -> same_source it it'.
Proof. unfold same_source. simpl. auto. Qed.

Lemma current_at (it : engine.Iterator) (pre l : list (bytes * result bytes))
  (x : bytes * result bytes) :
  engine.items it = pre ++ x :: l ->
  engine.pos it = Z.of_nat (length pre) ->
  engine.Valid it = true /\ engine.current it = Some x.
Proof.
  intros Hi Hp.
  assert (V : engine.Valid it = true).
  { unfold engine.Valid. rewrite Hi, Hp, length_app. simpl.
    apply andb_true_intro. split; [apply Z.leb_le | apply Z.ltb_lt]; lia. }
  split; [exact V|].
  unfold engine.current. rewrite V, Hi, Hp, Nat2Z.id.
  rewrite nth_error_app2, Nat.sub_diag by lia. reflexivity.
Qed.

Lemma walk_step (fuel : nat) (reverse : bool) (it : engine.Iterator) (a : A)
  (k : bytes) (rv : result bytes) :
  engine.Valid it = true -> engine.current it = Some (k, rv) ->
  walk (Datatypes.S fuel) reverse fn it a =
  match rv with
  | Err e => Some (it, a, Err e)
  | Panic m => Some (it, a, Panic m)
  | Ok v =>
      match fn a (mkKey [] (Some k)) (if is_empty_value v then None else Some v) with
      | (a', Some e) => Some (it, a', Err e)
      | (a', None) =>
          walk fuel reverse fn (if negb reverse then engine.Next it else engine.Prev it) a'
      end
  end.
Proof.
  intros V C. cbn [walk]. unfold engine.Key, engine.Value. rewrite V, C. reflexivity.
Qed.

Lemma walk_forward (l : list (bytes * result bytes)) :
  forall (pre : list (bytes * result bytes)) (it : engine.Iterator) (a : A) (fuel : nat),
    engine.items it = pre ++ l ->
    engine.pos it = Z.of_nat (length pre) ->
    (length l < fuel)%nat ->
    exists it',
      walk fuel false fn it a
      = Some (it', fst (visit fn l a), returned_error (snd (visit fn l a)) it) /\
      same_source it it'.
Proof.
  induction l as [|[k rv] l IH]; intros pre it a fuel Hi Hp Hf;
    (destruct fuel as [|fuel]; [lia|]).
  - exists it. split; [|apply same_source_refl].
    cbn [walk visit fst snd returned_error].
    assert (V : engine.Valid it = false).
    { unfold engine.Valid. rewrite Hi, Hp, app_nil_r.
      apply andb_false_intro2. apply Z.ltb_ge. lia. }
    now rewrite V.
  - destruct (current_at it pre l (k, rv) Hi Hp) as [V C].
    rewrite (walk_step fuel false it a k rv V C). cbn [visit].
    destruct rv as [v|e|m]; try (exists it; split; [reflexivity|apply same_source_refl]).
    destruct (fn a (mkKey [] (Some k)) (if is_empty_value v then None else Some v))
      as [a' [e|]].
    + exists it. split; [reflexivity|apply same_source_refl].
    + cbn [negb].
      destruct (IH (pre ++ [(k, Ok v)]) (engine.Next it) a' fuel) as [it' [W Hs]].
      * simpl. rewrite Hi, <- app_assoc. reflexivity.
      * simpl. rewrite Hp, length_app. simpl. lia.
      * simpl in Hf. lia.
      * exists it'. split; [exact W | exact (same_source_seek _ _ _ Hs)].
Qed.

Lemma walk_backward (l : list (bytes * result bytes)) :
  forall (post : list (bytes * result bytes)) (it : engine.Iterator) (a : A) (fuel : nat),
    engine.items it = rev l ++ post ->
    engine.pos it = Z.of_nat (length l) - 1 ->
    (length l < fuel)%nat ->
    exists it',
      walk fuel true fn it a
      = Some (it', fst (visit fn l a), returned_error (snd (visit fn l a)) it) /\
      same_source it it'.
Proof.
  induction l as [|[k rv] l IH]; intros post it a fuel Hi Hp Hf;
    (destruct fuel as [|fuel]; [lia|]).
  - exists it. split; [|apply same_source_refl].
    cbn [walk visit fst snd returned_error].
    assert (V : engine.Valid it = false).
    { unfold engine.Valid. rewrite Hp. reflexivity. }
    now rewrite V.
  - assert (Hi' : engine.items it = rev l ++ (k, rv) :: post).
    { rewrite Hi. simpl. rewrite <- app_assoc. reflexivity. }
    assert (Hp' : engine.pos it = Z.of_nat (length (rev l))).
    { rewrite Hp, length_rev. simpl length. lia. }
    destruct (current_at it (rev l) post (k, rv) Hi' Hp') as [V C].
    rewrite (walk_step fuel true it a k rv V C). cbn [visit].
    destruct rv as [v|e|m]; try (exists it; split; [reflexivity|apply same_source_refl]).
    destruct (fn a (mkKey [] (Some k)) (if is_empty_value v then None else Some v))
      as [a' [e|]].
    + exists it. split; [reflexivity|apply same_source_refl].
    + cbn [negb].
      destruct (IH ((k, Ok v) :: post) (engine.Prev it) a' fuel) as [it' [W Hs]].
      * simpl. exact Hi'.
      * simpl. rewrite Hp. simpl length. lia.
      * simpl in Hf. lia.
      * exists it'. split; [exact W | exact (same_source_seek _ _ _ Hs)].
Qed.

(** The loop is the walk of the specification: the fuel it is given is
    enough, and the iterator is closed once when it returns. *)
Lemma iterate_visit (it : engine.Iterator) (reverse : bool) (a : A) :
  exists it',
    iterate (Ok it) reverse fn a
    = mkOutcome (returned_error (snd (visit fn (positions reverse it) a)) it)
        (fst (visit fn (positions reverse it) a))
        (Some it') /\
    engine.items it' = engine.items it /\
    engine.closed it' = Datatypes.S (engine.closed it).
Proof.
  unfold iterate, positions. destruct reverse; cbn [negb].
  - destruct (walk_backward (rev (engine.items it)) [] (engine.Last it) a
                (Datatypes.S (length (engine.items (engine.Last it)))))
      as [it' [W [H1 [H2 H3]]]].
    + rewrite rev_involutive, app_nil_r. reflexivity.
    + rewrite length_rev. reflexivity.
    + rewrite length_rev. simpl. lia.
    + rewrite W. exists (engine.Close it'). split; [reflexivity|].
      simpl in *. split; [exact H1 | now rewrite H3].
  - destruct (walk_forward (engine.items it) [] (engine.First it) a
                (Datatypes.S (length (engine.items (engine.First it)))))
      as [it' [W [H1 [H2 H3]]]].
    + reflexivity.
    + reflexivity.
    + simpl. lia.
    + rewrite W. exists (engine.Close it'). split; [reflexivity|].
      simpl in *. split; [exact H1 | now rewrite H3].
Qed.

Lemma visit_app (pre l : list (bytes * result bytes)) (a : A) :
  visit fn (pre ++ l) a =
  match visit fn pre a with
  | (a', None) => visit fn l a'
  | (a', Some r) => (a', Some r)
  end.
Proof.
  revert a. induction pre as [|[k rv] pre IH]; intros a; simpl; [reflexivity|].
  destruct rv as [v|e|m]; try reflexivity.
  destruct (fn a (mkKey [] (Some k)) (if is_empty_value v then None else Some v))
    as [a' [e|]]; auto.
Qed.

End Walk.

Section IterationErrors.

Context {codec : Codec} {S : Type} {session : engine.Session S} {A : Type}.

(** C7. An error of boundary synthesis or of opening the iterator is
    returned at once. Once the iterator is open, the first error from
    reading a value or from the callback ends the walk there - the
    closure is as the calls before it left it - and is the returned
    error; without such an error the iterator's terminal error, if any,
    is returned; and on each of these paths the iterator has been closed,
    once, when the call returns. *)
Theorem iteration_short_circuits (t : Tree) (rng : option Range) (reverse : bool)
  (fn : callback A) (a : A) (s : S) :
  let r := match rng with None => emptyRange | Some r => r end in
  let out := IterateOnRange t rng reverse fn a s in
  (forall e, boundaries t r = Err e -> out = mkOutcome (Err e) a None) /\
  (forall start end_ e,
     boundaries t r = Ok (start, end_) ->
     engine.NewIterator s (engine.mkIterOptions start end_) = Err e ->
     out = mkOutcome (Err e) a None) /\
  (forall start end_ it,
     boundaries t r = Ok (start, end_) ->
     engine.NewIterator s (engine.mkIterOptions start end_) = Ok it ->
     (exists it', iterator out = Some it' /\
                  engine.closed it' = Datatypes.S (engine.closed it)) /\
     (forall pre k e post a',
        positions reverse it = pre ++ (k, Err e) :: post ->
        visit fn pre a = (a', None) ->
        ret out = Err e /\ closure out = a') /\
     (forall pre k v post a' a'' e,
        positions reverse it = pre ++ (k, Ok v) :: post ->
        visit fn pre a = (a', None) ->
        fn a' (mkKey [] (Some k)) (if is_empty_value v then None else Some v)
        = (a'', Some e) ->
        ret out = Err e /\ closure out = a'') /\
     (forall a',
        visit fn (positions reverse it) a = (a', None) ->
        ret out = of_error (engine.Error it) /\ closure out = a')).
Proof.
  intros r out. subst out. unfold IterateOnRange. fold r.
  split; [|split].
  - intros e H. rewrite H. reflexivity.
  - intros start end_ e H H'. rewrite H, H'. reflexivity.
  - intros start end_ it H H'. rewrite H, H'.
    destruct (iterate_visit fn it reverse a) as [it' [E [_ Hc]]].
    rewrite E. cbn [ret closure iterator].
    split; [eauto|]. split; [|split].
    + intros pre k e post a' Hp Hv. rewrite Hp, visit_app, Hv. simpl. auto.
    + intros pre k v post a' a'' e Hp Hv Hf. rewrite Hp, visit_app, Hv. simpl.
      rewrite Hf. simpl. auto.
    + intros a' Hv. rewrite Hv. simpl. auto.
Qed.

End IterationErrors.

Section IterationChecks.

#[local] Existing Instance demo.codec.
#[local] Existing Instance mem.session.

(** Forward over the three rows with a callback failing on the second:
    the third row is not visited, the error is returned, the iterator is
    closed. *)
Lemma iteration_short_circuits_witness :
  ret (IterateOnRange demo.t_asc None false (demo.record_until [Byte.x62]) [] demo.s3)
  = Err (ErrOther "stop") /\
  closure (IterateOnRange demo.t_asc None false (demo.record_until [Byte.x62]) [] demo.s3)
  = [Some [Byte.x61]; Some [Byte.x62]] /\
  option_map engine.closed
    (iterator (IterateOnRange demo.t_asc None false (demo.record_until [Byte.x62]) [] demo.s3))
  = Some 1%nat.
Proof.
  pose proof (iteration_short_circuits demo.t_asc None false
                (demo.record_until [Byte.x62]) [] demo.s3) as H.
  cbv zeta in H. destruct H as [_ [_ H]].
  specialize (H (demo.EncodeInt 12) (demo.EncodeInt 12 ++ [xFF])
                (engine.mkIterator
                   (map (fun kv => (fst kv, Ok (snd kv))) demo.s3) (-1) None 0)
                ltac:(vm_compute; reflexivity) ltac:(vm_compute; reflexivity)).
  destruct H as [[it' [Hi Hc]] [_ [Hcb _]]].
  specialize (Hcb [(demo.EncodeInt 12 ++ [Byte.x20] ++ demo.EncodeInt 1
                      ++ [Byte.x20] ++ demo.EncodeInt 10, Ok [Byte.x61])]
                  (demo.EncodeInt 12 ++ [Byte.x20] ++ demo.EncodeInt 1
                      ++ [Byte.x20] ++ demo.EncodeInt 20)
                  [Byte.x62]
                  [(demo.EncodeInt 12 ++ [Byte.x20] ++ demo.EncodeInt 2
                      ++ [Byte.x20] ++ demo.EncodeInt 5, Ok [Byte.x63])]
                  [Some [Byte.x61]] [Some [Byte.x61]; Some [Byte.x62]] (ErrOther "stop")
                  ltac:(vm_compute; reflexivity) ltac:(vm_compute; reflexivity)
                  ltac:(vm_compute; reflexivity)).
  destruct Hcb as [Hr Hcl].
  split; [exact Hr|]. split; [exact Hcl|].
  rewrite Hi. simpl. now rewrite Hc.
Defined.

(** A value that cannot be read: its error is returned, the callback has
    seen the first row only, the iterator is closed; in reverse the third
    row is seen before the failure. *)
Example iteration_value_error_demo :
  IterateOnRange (session := demo.flaky) demo.t_asc None false demo.record [] tt
  = mkOutcome (Err (ErrOther "read")) [Some [Byte.x61]]
      (Some (engine.mkIterator (engine.items demo.flaky_iterator) 1
               (Some (ErrOther "terminal")) 1)) /\
  IterateOnRange (session := demo.flaky) demo.t_asc None true demo.record [] tt
  = mkOutcome (Err (ErrOther "read")) [Some [Byte.x63]]
      (Some (engine.mkIterator (engine.items demo.flaky_iterator) 1
               (Some (ErrOther "terminal")) 1)).
Proof. split; vm_compute; reflexivity. Qed.

(** *** The end-to-end scenarios of the specification *)

(** S1: a second [Insert] on the key is refused and the first value
    stays. *)
Example scenario_S1 :
  let s := fst (Insert (mkTree 10 0) (NewKey [demo.VInt 5]) [Byte.x61] ([] : mem.store)) in
  snd (Insert (mkTree 10 0) (NewKey [demo.VInt 5]) [Byte.x62] s) = Err ErrKeyAlreadyExists /\
  Get (mkTree 10 0) (NewKey [demo.VInt 5])
    (fst (Insert (mkTree 10 0) (NewKey [demo.VInt 5]) [Byte.x62] s))
  = Ok (Some [Byte.x61]).
Proof. split; vm_compute; reflexivity. Qed.

(** S2: component 0 descending, forward iteration yields 3, 2, 1. *)
Example scenario_S2 :
  closure (IterateOnRange demo.t_desc None false demo.record [] demo.s2)
  = [Some [Byte.x33]; Some [Byte.x32]; Some [Byte.x31]] /\
  closure (IterateOnRange demo.t_desc None true demo.record [] demo.s2)
  = [Some [Byte.x31]; Some [Byte.x32]; Some [Byte.x33]].
Proof. split; vm_compute; reflexivity. Qed.

(** S3 and S4: the composite range from (1,10) to (1,20), inclusive
    and exclusive. *)
Example scenario_S3_S4 :
  closure (IterateOnRange demo.t_asc
             (Some (mkRange (Some demo.k_1_10) (Some demo.k_1_20) false))
             false demo.record [] demo.s3)
  = [Some [Byte.x61]; Some [Byte.x62]] /\
  closure (IterateOnRange demo.t_asc
             (Some (mkRange (Some demo.k_1_10) (Some demo.k_1_20) true))
             false demo.record [] demo.s3)
  = [].
Proof. split; vm_compute; reflexivity. Qed.

(** S5: a partial key, the upper bound open or the same partial key. *)
Example scenario_S5 :
  closure (IterateOnRange demo.t_asc (Some (mkRange (Some demo.k_1) None false))
             false demo.record [] demo.s3)
  = [Some [Byte.x61]; Some [Byte.x62]; Some [Byte.x63]] /\
  closure (IterateOnRange demo.t_asc (Some (mkRange (Some demo.k_1) (Some demo.k_1) false))
             false demo.record [] demo.s3)
  = [Some [Byte.x61]; Some [Byte.x62]].
Proof. split; vm_compute; reflexivity. Qed.

End IterationChecks.

(** ** The insert-conflict actions *)

Section ConflictActions.

Variables Table Document PrimaryKey : Type.
Variable Replace : Table -> bytes -> Document -> Table * option error.
Variable GetPrimaryKey : Table -> PrimaryKey.

(** C9. [OnInsertConflictDoNothing] returns no document and no error, in
    both revisions. [OnInsertConflictDoReplace] with a nil key returns the
    triggering error unchanged (and touches nothing); with a key it calls
    [Replace(key, d)] and returns [d] annotated with the key and the
    table's primary key, or, when [Replace] fails, its error and no
    document. *)
Theorem conflict_actions (t : Table) (key : option bytes) (d : Document) (err : option error) :
  database.OnInsertConflictDoNothing t key d err
  = (t, (@None (database.returned Document PrimaryKey), None)) /\
  database.OnInsertConflictDoNothing3 t key d
  = (t, (@None (database.returned Document PrimaryKey), None)) /\
  database.OnInsertConflictDoReplace Replace GetPrimaryKey t None d err
  = (t, (Some (database.incoming d), err)) /\
  (forall kb t',
     Replace t kb d = (t', None) ->
     database.OnInsertConflictDoReplace Replace GetPrimaryKey t (Some kb) d err
     = (t', (Some (database.documentWithKey d kb (GetPrimaryKey t')), None))) /\
  (forall kb t' e,
     Replace t kb d = (t', Some e) ->
     database.OnInsertConflictDoReplace Replace GetPrimaryKey t (Some kb) d err
     = (t', (None, Some e))).
Proof.
  repeat apply conj; try reflexivity.
  - intros kb t' H. unfold database.OnInsertConflictDoReplace. now rewrite H.
  - intros kb t' e H. unfold database.OnInsertConflictDoReplace. now rewrite H.
Qed.

End ConflictActions.

Lemma conflict_actions_witness :
  database.OnInsertConflictDoReplace demo.Replace demo.GetPrimaryKey
    [([Byte.x01], "old"%string)] (Some [Byte.x01]) "new"%string (Some ErrKeyAlreadyExists)
  = ([([Byte.x01], "new"%string)],
     (Some (database.documentWithKey "new"%string [Byte.x01] "id"%string), None)) /\
  database.OnInsertConflictDoReplace demo.Replace demo.GetPrimaryKey
    [([Byte.x01], "old"%string)] (Some [Byte.x02]) "new"%string (Some ErrKeyAlreadyExists)
  = ([([Byte.x01], "old"%string)], (None, Some ErrKeyNotFound)).
Proof.
  pose proof (conflict_actions demo.table string string demo.Replace demo.GetPrimaryKey
                [([Byte.x01], "old"%string)] None "new"%string (Some ErrKeyAlreadyExists))
    as [_ [_ [_ [Hok Hfail]]]].
  split.
  - apply (Hok [Byte.x01] [([Byte.x01], "new"%string)]). reflexivity.
  - apply (Hfail [Byte.x02] [([Byte.x01], "old"%string)] ErrKeyNotFound). reflexivity.
Defined.

(** ** Iterating on a whole namespace, truncating it *)

Section WholeNamespace.

Context {codec : Codec}.

#[local] Existing Instance mem.session.

Lemma boundaries_whole (t : Tree) :
  boundaries t emptyRange
  = Ok (EncodeInt (int64_of_ns (Namespace_ t)) ++ [], buildLastKey t).
Proof. reflexivity. Qed.

Lemma IterateOnRange_whole {A : Type} (t : Tree) (reverse : bool) (fn : callback A)
  (a : A) (s : mem.store) :
  IterateOnRange t None reverse fn a s = iterate (Ok (whole t s)) reverse fn a.
Proof.
  unfold IterateOnRange. rewrite boundaries_whole.
  cbn [engine.NewIterator mem.session]. unfold mem.NewIterator, whole.
  cbn [engine.LowerBound engine.UpperBound]. now rewrite app_nil_r.
Qed.

(** Nothing between the bounds: the callback is not called. *)
Lemma iterate_nothing {A : Type} (it : engine.Iterator) (reverse : bool)
  (fn : callback A) (a : A) :
  engine.items it = [] ->
  ret (iterate (Ok it) reverse fn a) = of_error (engine.Error it) /\
  closure (iterate (Ok it) reverse fn a) = a.
Proof.
  intros H. destruct (iterate_visit fn it reverse a) as [it' [E _]].
  rewrite E. unfold positions. rewrite H. destruct reverse; simpl; auto.
Qed.

(** Something between the bounds: the callback of [NewTransient] is called
    and its error returned. *)
Lemma iterate_in_use (it : engine.Iterator) (ns : Namespace)
  (k v : bytes) (l : list (bytes * result bytes)) :
  engine.items it = (k, Ok v) :: l ->
  ret (iterate (Ok it) false (in_use ns) tt) = Err (ErrNamespaceInUse ns).
Proof.
  intros H. destruct (iterate_visit (in_use ns) it false tt) as [it' [E _]].
  rewrite E. unfold positions. rewrite H. reflexivity.
Qed.

Lemma between_nil_iff (lo hi : bytes) (s : mem.store) :
  mem.between lo hi s = [] <->
  (forall k v, In (k, v) s -> in_range lo hi k = false).
Proof.
  unfold mem.between. induction s as [|[k' v'] s IH]; simpl.
  - split; [intros _ k v []|reflexivity].
  - destruct (in_range lo hi k') eqn:E; split.
    + discriminate.
    + intros H. specialize (H k' v' (or_introl eq_refl)). congruence.
    + intros H k v [X|X].
      * inversion X; subst. exact E.
      * apply (proj1 IH H k v X).
    + intros H. apply IH. intros k v X. apply (H k v). now right.
Qed.

Lemma outside_in (lo hi k v : bytes) (s : mem.store) :
  In (k, v) (mem.outside lo hi s) <-> In (k, v) s /\ in_range lo hi k = false.
Proof.
  unfold mem.outside. rewrite filter_In. simpl.
  destruct (in_range lo hi k); simpl; intuition congruence.
Qed.

(** An empty interval: [DeleteRange] deletes nothing. *)
Lemma outside_empty_interval (lo hi : bytes) (s : mem.store) :
  bytes_ltb hi lo = true -> mem.outside lo hi s = s.
Proof.
  intros H. unfold mem.outside.
  induction s as [|[k v] s IH]; simpl; [reflexivity|].
  assert (E : in_range lo hi k = false).
  { unfold in_range.
    destruct (bytes_leb lo k) eqn:L; [|reflexivity].
    destruct (bytes_ltb k hi) eqn:U; [|reflexivity].
    pose proof (bytes_ltb_trans hi lo hi H (bytes_leb_ltb_trans lo k hi L U)) as C.
    rewrite bytes_ltb_irrefl in C. discriminate. }
  rewrite E. simpl. now rewrite IH.
Qed.

Lemma in_range_widen (lo hi hi' k : bytes) :
  bytes_leb hi hi' = true -> in_range lo hi k = true -> in_range lo hi' k = true.
Proof.
  unfold in_range. intros H E. apply andb_prop in E. destruct E as [L U].
  rewrite L. simpl. apply (bytes_ltb_leb_trans k hi hi'); auto.
Qed.

Lemma Truncate_mem (t : Tree) (s : mem.store) :
  Truncate t s = (mem.outside (truncate_lo t) (truncate_hi t) s, None).
Proof. reflexivity. Qed.

Lemma int64_of_ns_range (ns : Namespace) : is_int64 (int64_of_ns ns).
Proof. apply wrap_int64_range. Qed.

Lemma truncate_hi_succ (t : Tree) :
  int64_of_ns (Namespace_ t) <> MaxInt64 ->
  truncate_hi t = EncodeInt (int64_of_ns (Namespace_ t) + 1).
Proof.
  intros H. unfold truncate_hi.
  rewrite (wrap_int64_small (int64_of_ns (Namespace_ t) + 1)); [reflexivity|].
  pose proof (int64_of_ns_range (Namespace_ t)). unfold is_int64 in *. lia.
Qed.

(** Where the successor of the namespace does not overflow, the whole
    namespace lies inside the bounds of [Truncate]. *)
Lemma whole_inside_truncate (t : Tree) (k : bytes) :
  EncodeInt_ordered ->
  int64_of_ns (Namespace_ t) <> MaxInt64 ->
  in_range (truncate_lo t) (buildLastKey t) k = true ->
  in_range (truncate_lo t) (truncate_hi t) k = true.
Proof.
  intros Hord Hmax. apply in_range_widen.
  rewrite (truncate_hi_succ t Hmax). apply bytes_ltb_leb.
  rewrite <- (app_nil_r (EncodeInt (int64_of_ns (Namespace_ t) + 1))).
  unfold buildLastKey.
  pose proof (int64_of_ns_range (Namespace_ t)) as R.
  apply Hord; unfold is_int64 in *; lia.
Qed.

(** The keys of the other namespaces lie outside them. *)
Lemma other_namespace_outside (t : Tree) (m : Z) (rest : bytes) :
  EncodeInt_ordered ->
  int64_of_ns (Namespace_ t) <> MaxInt64 ->
  is_int64 m -> m <> int64_of_ns (Namespace_ t) ->
  in_range (truncate_lo t) (truncate_hi t) (EncodeInt m ++ rest) = false.
Proof.
  intros Hord Hmax Hm Hne.
  pose proof (int64_of_ns_range (Namespace_ t)) as R.
  rewrite (truncate_hi_succ t Hmax). unfold in_range, truncate_lo.
  set (n := int64_of_ns (Namespace_ t)) in *.
  destruct (Z.lt_trichotomy m n) as [L|[E|G]]; [|contradiction|].
  - assert (H : bytes_ltb (EncodeInt m ++ rest) (EncodeInt n) = true).
    { rewrite <- (app_nil_r (EncodeInt n)). apply Hord; auto. }
    rewrite bytes_ltb_antisym in H. apply negb_true_iff in H. now rewrite H.
  - assert (H : bytes_leb (EncodeInt (n + 1)) (EncodeInt m ++ rest) = true).
    { destruct (Z.eq_dec m (n + 1)) as [->|N].
      - apply bytes_leb_prefix.
      - apply bytes_ltb_leb. rewrite <- (app_nil_r (EncodeInt (n + 1))).
        apply Hord; unfold is_int64 in *; lia. }
    rewrite bytes_ltb_antisym, H. apply andb_false_r.
Qed.

(** [Truncate] where the successor of the namespace does not overflow:
    one [DeleteRange]; afterwards the iteration on the namespace calls the
    callback on no key, and the keys of every other namespace are as
    before. *)
Lemma Truncate_isolation (t : Tree) (s : mem.store) :
  EncodeInt_ordered ->
  int64_of_ns (Namespace_ t) <> MaxInt64 ->
  Truncate t s
  = engine.DeleteRange s (EncodeInt (int64_of_ns (Namespace_ t)))
      (EncodeInt (int64_of_ns (Namespace_ t) + 1)) /\
  (forall (A : Type) reverse (fn : callback A) a,
     ret (IterateOnRange t None reverse fn a (fst (Truncate t s))) = Ok tt /\
     closure (IterateOnRange t None reverse fn a (fst (Truncate t s))) = a) /\
  (forall m rest, is_int64 m -> m <> int64_of_ns (Namespace_ t) ->
     mem.lookup (EncodeInt m ++ rest) (fst (Truncate t s))
     = mem.lookup (EncodeInt m ++ rest) s).
Proof.
  intros Hord Hmax. split; [|split].
  - unfold Truncate.
    now rewrite (wrap_int64_small (int64_of_ns (Namespace_ t) + 1))
      by (pose proof (int64_of_ns_range (Namespace_ t)); unfold is_int64 in *; lia).
  - intros A reverse fn a. rewrite IterateOnRange_whole.
    apply (iterate_nothing (whole t (fst (Truncate t s)))).
    unfold whole. cbn [engine.items].
    replace (mem.between _ _ _) with (@nil (bytes * bytes)); [reflexivity|].
    symmetry. apply between_nil_iff. intros k v Hin.
    rewrite Truncate_mem in Hin. cbn [fst] in Hin. apply outside_in in Hin.
    destruct Hin as [_ Hout].
    destruct (in_range (EncodeInt (int64_of_ns (Namespace_ t))) (buildLastKey t) k) eqn:E;
      [|reflexivity].
    apply (whole_inside_truncate t k Hord Hmax) in E. congruence.
  - intros m rest Hm Hne. rewrite Truncate_mem. cbn [fst].
    rewrite lookup_outside, (other_namespace_outside t m rest); auto.
Qed.

End WholeNamespace.

(** ** Transient trees *)

Section Transient.

Context {codec : Codec}.

#[local] Existing Instance mem.session.

(** Between a byte string and its 0xFF extension lie its extensions
    only. *)
Lemma between_prefix (p k : bytes) (x : byte) :
  bytes_leb p k = true -> bytes_ltb k (p ++ [x]) = true -> exists rest, k = p ++ rest.
Proof.
  revert k. induction p as [|a p IH]; intros k L U.
  - exists k. reflexivity.
  - destruct k as [|b k]; [discriminate L|].
    unfold bytes_leb in L. unfold bytes_ltb in U. simpl in L, U.
    rewrite (Z.compare_antisym (byte.unsigned b) (byte.unsigned a)) in L.
    destruct (Z.compare_spec (byte.unsigned b) (byte.unsigned a)) as [E|Lt|Gt];
      simpl in L; try discriminate.
    apply byte.unsigned_inj in E. subst b.
    destruct (IH k) as [rest ->]; [exact L | exact U |].
    exists rest. reflexivity.
Qed.

Lemma encodeValues_head (order : SortOrder) (i : Z) (vs : list Value) (r : bytes) :
  tags_below_xFF -> encodeValues order i vs = Ok r -> hd_error r <> Some xFF.
Proof.
  intros Htag. destruct vs as [|v vs]; simpl.
  - intros H. inversion H. discriminate.
  - destruct (IsDesc order i) as [d|e|m]; simpl; try discriminate.
    destruct (EncodeValue d v) as [b|e|m] eqn:Eb; simpl; try discriminate.
    destruct (encodeValues order (i + 1) vs) as [r'|e|m]; simpl; try discriminate.
    intros H. inversion H; subst. destruct (Htag d v b Eb) as [H1 H2].
    destruct b; simpl in *; congruence.
Qed.

(** An encoded key lies within the bounds of the iteration on its whole
    namespace. *)
Lemma Encode_in_whole (t : Tree) (K : Key) (kb : bytes) :
  tags_below_xFF ->
  Encoded K = None ->
  Encode K (Namespace_ t) (Order t) = Ok kb ->
  in_range (EncodeInt (int64_of_ns (Namespace_ t))) (buildLastKey t) kb = true.
Proof.
  intros Htag Hc. unfold Encode. rewrite Hc.
  destruct (encodeValues (Order t) 0 (values K)) as [r|e|m] eqn:E; simpl; try discriminate.
  intros H. inversion H; subst. unfold in_range, buildLastKey.
  rewrite bytes_leb_prefix. simpl. apply bytes_ltb_below_xFF.
  exact (encodeValues_head _ _ _ _ Htag E).
Qed.

Lemma NewTransient_in_use (ns : Namespace) (order : SortOrder) (s : mem.store) (k v : bytes) :
  In (k, v) s ->
  in_range (EncodeInt (int64_of_ns ns)) (buildLastKey (mkTree ns order)) k = true ->
  NewTransient ns order s = Err (ErrNamespaceInUse ns).
Proof.
  intros Hin Hr. unfold NewTransient. rewrite IterateOnRange_whole.
  destruct (mem.between (EncodeInt (int64_of_ns ns)) (buildLastKey (mkTree ns order)) s)
    as [|[k0 v0] l] eqn:B.
  - exfalso. pose proof (proj1 (between_nil_iff _ _ _) B k v Hin) as C.
    simpl in C. congruence.
  - rewrite (iterate_in_use (whole (mkTree ns order) s) ns k0 v0
               (map (fun kv => (fst kv, Ok (snd kv))) l)); [reflexivity|].
    unfold whole. cbn [engine.items Namespace_]. now rewrite B.
Qed.

Lemma NewTransient_free (ns : Namespace) (order : SortOrder) (s : mem.store) :
  (forall k v, In (k, v) s ->
     in_range (EncodeInt (int64_of_ns ns)) (buildLastKey (mkTree ns order)) k = false) ->
  NewTransient ns order s = Ok (mkTree ns order, Truncate (mkTree ns order)).
Proof.
  intros H. unfold NewTransient. rewrite IterateOnRange_whole.
  destruct (iterate_nothing (whole (mkTree ns order) s) false (in_use ns) tt) as [E _].
  - unfold whole. cbn [engine.items Namespace_].
    now rewrite (proj2 (between_nil_iff _ _ _) H).
  - rewrite E. reflexivity.
Qed.

(** The preflight of [NewTransient]: refused when a key of the namespace
    is stored, granted - with [Truncate] as the cleanup handle - when no
    stored key has the prefix of the namespace. *)
Lemma NewTransient_preflight (ns : Namespace) (order : SortOrder) (s : mem.store) :
  (tags_below_xFF ->
   forall K kb, Encoded K = None -> Encode K ns order = Ok kb ->
                mem.lookup kb s <> None ->
                NewTransient ns order s = Err (ErrNamespaceInUse ns)) /\
  ((forall k, in_namespace ns k -> mem.lookup k s = None) ->
   NewTransient ns order s = Ok (mkTree ns order, Truncate (mkTree ns order))).
Proof.
  split.
  - intros Htag K kb Hc Hk Hl.
    destruct (mem.lookup kb s) as [v|] eqn:L; [|contradiction].
    destruct (lookup_in kb v s L) as [v' Hin].
    apply (NewTransient_in_use ns order s kb v' Hin).
    exact (Encode_in_whole (mkTree ns order) K kb Htag Hc Hk).
  - intros Hfree. apply NewTransient_free. intros k v Hin.
    destruct (in_range (EncodeInt (int64_of_ns ns)) (buildLastKey (mkTree ns order)) k)
      eqn:E; [|reflexivity].
    unfold in_range in E. apply andb_prop in E. destruct E as [L U].
    destruct (between_prefix _ _ _ L U) as [rest ->].
    exfalso. apply (in_lookup _ _ _ Hin). apply Hfree. exists rest. reflexivity.
Qed.

(** The cleanup handle is idempotent, on every namespace. *)
Lemma Truncate_idempotent (t : Tree) (s : mem.store) :
  Truncate t (fst (Truncate t s)) = Truncate t s.
Proof.
  rewrite !Truncate_mem. cbn [fst]. f_equal. unfold mem.outside.
  induction s as [|[k v] s IH]; simpl; [reflexivity|].
  destruct (in_range (truncate_lo t) (truncate_hi t) k) eqn:E; simpl; [exact IH|].
  rewrite E. simpl. now rewrite IH.
Qed.

Lemma Truncate_repeated (t : Tree) (s : mem.store) (n : nat) :
  Nat.iter (Datatypes.S n) (fun s => fst (Truncate t s)) s = fst (Truncate t s).
Proof.
  induction n as [|n IH]; [reflexivity|].
  change (Nat.iter (Datatypes.S (Datatypes.S n)) (fun s => fst (Truncate t s)) s)
    with (fst (Truncate t (Nat.iter (Datatypes.S n) (fun s => fst (Truncate t s)) s))).
  rewrite IH. now rewrite Truncate_idempotent.
Qed.

(** Where the successor of the namespace does not overflow, the handle
    called once or more leaves a namespace that [NewTransient] accepts. *)
Lemma cleanup_restores (ns : Namespace) (order : SortOrder) (s : mem.store) (n : nat) :
  EncodeInt_ordered ->
  int64_of_ns ns <> MaxInt64 ->
  NewTransient ns order
    (Nat.iter (Datatypes.S n) (fun s => fst (Truncate (mkTree ns order) s)) s)
  = Ok (mkTree ns order, Truncate (mkTree ns order)).
Proof.
  intros Hord Hmax. rewrite Truncate_repeated. apply NewTransient_free.
  intros k v Hin. rewrite Truncate_mem in Hin. cbn [fst] in Hin.
  apply outside_in in Hin. destruct Hin as [_ Hout].
  destruct (in_range (EncodeInt (int64_of_ns ns)) (buildLastKey (mkTree ns order)) k)
    eqn:E; [|reflexivity].
  apply (whole_inside_truncate (mkTree ns order) k Hord Hmax) in E. congruence.
Qed.

End Transient.

(** ** The namespace MaxInt64 *)

Section Overflow.

Context {codec : Codec}.

#[local] Existing Instance mem.session.

Lemma truncate_bounds_at_MaxInt64 (order : SortOrder) :
  truncate_lo (mkTree MaxInt64 order) = EncodeInt MaxInt64 /\
  truncate_hi (mkTree MaxInt64 order) = EncodeInt MinInt64.
Proof. split; reflexivity. Qed.

Lemma MaxInt64_truncate_deletes_nothing (order : SortOrder) (s : mem.store) :
  bytes_ltb (EncodeInt MinInt64) (EncodeInt MaxInt64) = true ->
  Truncate (mkTree MaxInt64 order) s
  = engine.DeleteRange s (EncodeInt MaxInt64) (EncodeInt MinInt64) /\
  fst (Truncate (mkTree MaxInt64 order) s) = s.
Proof.
  intros H. split; [reflexivity|].
  rewrite Truncate_mem. cbn [fst].
  destruct (truncate_bounds_at_MaxInt64 order) as [-> ->].
  now apply outside_empty_interval.
Qed.

(** C5, where it fails. On the namespace [MaxInt64] the upper bound
    [int64(ns)+1] of [Truncate] wraps around to [MinInt64]: under an
    order-preserving integer encoding the interval of its one
    [DeleteRange] is empty, nothing is deleted, and the iteration on the
    namespace yields after [Truncate] what it yielded before. *)
Theorem Truncate_wraps_at_MaxInt64 (order : SortOrder) (s : mem.store) :
  bytes_ltb (EncodeInt MinInt64) (EncodeInt MaxInt64) = true ->
  Truncate (mkTree MaxInt64 order) s
  = engine.DeleteRange s (EncodeInt MaxInt64) (EncodeInt MinInt64) /\
  fst (Truncate (mkTree MaxInt64 order) s) = s /\
  (forall (A : Type) reverse (fn : callback A) a,
     IterateOnRange (mkTree MaxInt64 order) None reverse fn a
       (fst (Truncate (mkTree MaxInt64 order) s))
     = IterateOnRange (mkTree MaxInt64 order) None reverse fn a s).
Proof.
  intros H.
  destruct (MaxInt64_truncate_deletes_nothing order s H) as [D E].
  split; [exact D|]. split; [exact E|].
  intros A reverse fn a. now rewrite E.
Qed.

(** C6, where it fails. On the namespace [MaxInt64], granted on an empty
    store, the cleanup handle called any number of times leaves a key put
    in the tree where it is, and the namespace in use. *)
Theorem cleanup_fails_at_MaxInt64 (order : SortOrder) (K : Key) (kb v : bytes) (n : nat) :
  bytes_ltb (EncodeInt MinInt64) (EncodeInt MaxInt64) = true ->
  Encode K MaxInt64 order = Ok kb ->
  in_range (EncodeInt MaxInt64) (EncodeInt MaxInt64 ++ [xFF]) kb = true ->
  NewTransient MaxInt64 order []
  = Ok (mkTree MaxInt64 order, Truncate (mkTree MaxInt64 order)) /\
  Nat.iter n (fun s => fst (Truncate (mkTree MaxInt64 order) s))
    (fst (Put (mkTree MaxInt64 order) K v []))
  = fst (Put (mkTree MaxInt64 order) K v []) /\
  NewTransient MaxInt64 order
    (Nat.iter n (fun s => fst (Truncate (mkTree MaxInt64 order) s))
       (fst (Put (mkTree MaxInt64 order) K v [])))
  = Err (ErrNamespaceInUse MaxInt64).
Proof.
  intros Hord Hk Hr.
  assert (E : forall s : mem.store,
             Nat.iter n (fun s => fst (Truncate (mkTree MaxInt64 order) s)) s = s).
  { intros s. induction n as [|n IH]; [reflexivity|].
    rewrite Nat.iter_succ, IH.
    exact (proj2 (MaxInt64_truncate_deletes_nothing order s Hord)). }
  split; [|split].
  - apply NewTransient_free. intros k w [].
  - apply E.
  - rewrite E. unfold Put. cbn [Namespace_ Order]. rewrite Hk.
    cbn [engine.Put mem.session]. unfold mem.Put. cbn [fst mem.upsert].
    eapply NewTransient_in_use; [left; reflexivity|exact Hr].
Qed.

End Overflow.

(** ** The small codec meets what is asked of the encodings *)

Lemma unsigned_of_Z_small (z : Z) : 0 <= z < 256 -> byte.unsigned (byte.of_Z z) = z.
Proof.
  intros H. rewrite byte.unsigned_of_Z. unfold byte.wrap.
  apply Z.mod_small. change (2 ^ 8) with 256. lia.
Qed.

Lemma big_endian_ordered (w : nat) :
  forall (n m : Z) (s t : bytes),
    0 <= n -> n < m -> m < 256 ^ Z.of_nat w ->
    bytes_ltb (demo.big_endian w n ++ s) (demo.big_endian w m ++ t) = true.
Proof.
  induction w as [|w IH]; intros n m s t Hn Hnm Hm.
  - simpl in Hm. lia.
  - rewrite Nat2Z.inj_succ, Z.pow_succ_r in Hm by lia.
    cbn [demo.big_endian app]. set (p := 256 ^ Z.of_nat w) in *.
    assert (Hp : 0 < p) by (apply Z.pow_pos_nonneg; lia).
    assert (Qn : 0 <= n / p < 256).
    { split; [apply Z.div_pos; lia | apply Z.div_lt_upper_bound; lia]. }
    assert (Qm : 0 <= m / p < 256).
    { split; [apply Z.div_pos; lia | apply Z.div_lt_upper_bound; lia]. }
    unfold bytes_ltb. cbn [bytes_compare].
    rewrite !unsigned_of_Z_small by assumption.
    pose proof (Z.div_le_mono n m p Hp ltac:(lia)) as Hle.
    destruct (Z.compare_spec (n / p) (m / p)) as [E|L|G]; [|reflexivity|lia].
    pose proof (Z.div_mod n p ltac:(lia)) as Dn.
    pose proof (Z.div_mod m p ltac:(lia)) as Dm.
    pose proof (Z.mod_pos_bound n p Hp) as Bn.
    pose proof (Z.mod_pos_bound m p Hp) as Bm.
    rewrite E in Dn.
    apply (IH (n mod p) (m mod p) s t); lia.
Qed.

Lemma demo_EncodeInt_ordered : @EncodeInt_ordered demo.codec.
Proof.
  intros a b s t Ha Hb Hab. cbn [EncodeInt demo.codec]. unfold demo.EncodeInt.
  unfold is_int64, MinInt64, MaxInt64 in *.
  apply big_endian_ordered; change (Z.of_nat 8) with 8; lia.
Qed.

Lemma demo_tags_below_xFF : @tags_below_xFF demo.codec.
Proof.
  intros desc v b H. cbn [EncodeValue demo.codec] in H. unfold demo.EncodeValue in H.
  inversion H; subst. clear H.
  destruct desc, v as [n|[|]]; cbn [demo.encode_asc demo.complement map hd_error];
    split; try discriminate;
    intros C; inversion C as [C']; vm_compute in C'; discriminate.
Qed.

(** ** The namespace theorems on the small codec *)

Section NamespaceChecks.

#[local] Existing Instance demo.codec.
#[local] Existing Instance mem.session.

(** Truncating namespace 12 leaves it empty and a row of namespace 13
    alone. *)
Example Truncate_isolation_demo :
  closure (IterateOnRange demo.t_asc None false (demo.record_until []) []
             (fst (Truncate demo.t_asc (demo.put (mkTree 13 0) demo.k_1 [Byte.x7a] demo.s3))))
  = [] /\
  Get (mkTree 13 0) demo.k_1
    (fst (Truncate demo.t_asc (demo.put (mkTree 13 0) demo.k_1 [Byte.x7a] demo.s3)))
  = Ok (Some [Byte.x7a]).
Proof.
  destruct (Truncate_isolation demo.t_asc
              (demo.put (mkTree 13 0) demo.k_1 [Byte.x7a] demo.s3)
              demo_EncodeInt_ordered ltac:(vm_compute; discriminate)) as [_ [Hit _]].
  split; [apply Hit | vm_compute; reflexivity].
Qed.

Example NewTransient_preflight_demo :
  NewTransient 12 0 demo.s3 = Err (ErrNamespaceInUse 12) /\
  NewTransient 13 0 demo.s3 = Ok (mkTree 13 0, Truncate (mkTree 13 0)) /\
  NewTransient 12 0 (fst (Truncate demo.t_asc demo.s3))
  = Ok (mkTree 12 0, Truncate (mkTree 12 0)).
Proof.
  split; [|split].
  - apply (proj1 (NewTransient_preflight 12 0 demo.s3) demo_tags_below_xFF
             demo.k_1_10 (demo.EncodeInt 12 ++ [Byte.x20] ++ demo.EncodeInt 1
                            ++ [Byte.x20] ++ demo.EncodeInt 10)).
    + reflexivity.
    + vm_compute. reflexivity.
    + vm_compute. discriminate.
  - reflexivity.
  - apply (cleanup_restores 12 0 demo.s3 0 demo_EncodeInt_ordered).
    vm_compute. discriminate.
Qed.

Lemma Truncate_wraps_at_MaxInt64_witness :
  fst (Truncate (mkTree MaxInt64 0) (demo.put (mkTree MaxInt64 0) demo.k_1 [Byte.x61] []))
  = demo.put (mkTree MaxInt64 0) demo.k_1 [Byte.x61] [] /\
  closure (IterateOnRange (mkTree MaxInt64 0) None false (demo.record_until []) []
             (fst (Truncate (mkTree MaxInt64 0)
                     (demo.put (mkTree MaxInt64 0) demo.k_1 [Byte.x61] []))))
  = [Some [Byte.x61]].
Proof.
  destruct (Truncate_wraps_at_MaxInt64 (codec := demo.codec) 0
              (demo.put (mkTree MaxInt64 0) demo.k_1 [Byte.x61] [])
              ltac:(vm_compute; reflexivity)) as [_ [E Hit]].
  split; [exact E|]. rewrite Hit. vm_compute. reflexivity.
Defined.

Lemma cleanup_fails_at_MaxInt64_witness :
  NewTransient MaxInt64 0 ([] : mem.store)
  = Ok (mkTree MaxInt64 0, Truncate (mkTree MaxInt64 0)) /\
  NewTransient MaxInt64 0
    (Nat.iter 2 (fun s => fst (Truncate (mkTree MaxInt64 0) s))
       (fst (Put (mkTree MaxInt64 0) demo.k_1 [Byte.x61] ([] : mem.store))))
  = Err (ErrNamespaceInUse MaxInt64).
Proof.
  destruct (cleanup_fails_at_MaxInt64 (codec := demo.codec) 0 demo.k_1
              (demo.EncodeInt MaxInt64 ++ [Byte.x20] ++ demo.EncodeInt 1)
              [Byte.x61] 2
              ltac:(vm_compute; reflexivity) ltac:(vm_compute; reflexivity)
              ltac:(vm_compute; reflexivity)) as [H1 [_ H3]].
  split; [exact H1 | exact H3].
Defined.

End NamespaceChecks.

(* ------------------------------------------------------------------ *)
(** * Further properties of the code *)

(** ** SortOrder over the whole range of its index *)

Lemma is_uint64_iff (x : Z) : is_uint64 x <-> Z.land x (Z.ones 64) = x.
Proof.
  unfold is_uint64. rewrite Z.land_ones by lia. split.
  - intros H. now apply Z.mod_small.
  - intros <-. apply Z.mod_pos_bound. lia.
Qed.

Lemma wrap_int64_high (z : Z) :
  2 ^ 63 <= z < 2 ^ 64 -> wrap_int64 z = z - 2 ^ 64.
Proof.
  intros H. unfold wrap_int64.
  replace (z + 2 ^ 63) with (z - 2 ^ 63 + 1 * 2 ^ 64) by lia.
  rewrite Z.mod_add by lia. rewrite Z.mod_small by lia. lia.
Qed.

(** The shift count [63 - i] of the three methods, for an index the guard
    lets through. *)
Lemma shift_count (i : Z) :
  is_int64 i -> i <= 63 ->
  (i <= MinInt64 + 63 -> wrap_int64 (63 - i) < 0) /\
  (MinInt64 + 63 < i -> wrap_int64 (63 - i) = 63 - i).
Proof.
  unfold is_int64, MinInt64, MaxInt64. intros H H63. split; intros Hi.
  - rewrite wrap_int64_high by lia. lia.
  - apply wrap_int64_small. unfold is_int64, MinInt64, MaxInt64. lia.
Qed.

(** What [IsDesc], [SetDesc] and [SetAsc] do on every [int] index: they
    panic above 63 (the guard) and on the 64 lowest indexes (the shift
    count [63 - i] overflows to a negative one); on every other negative
    index the mask is 0, [IsDesc] answers [false] and the two setters
    return the order unchanged; on [[0, 63]] they read, set and clear bit
    [63 - i]. *)
Theorem SortOrder_on_every_index (o : SortOrder) (i : Z) :
  is_int64 i ->
  ((63 < i \/ i <= MinInt64 + 63) ->
     panics (IsDesc o i) /\ panics (SetDesc o i) /\ panics (SetAsc o i)) /\
  (MinInt64 + 63 < i < 0 ->
     IsDesc o i = Ok false /\ SetDesc o i = Ok o /\ SetAsc o i = Ok o) /\
  (0 <= i <= 63 ->
     IsDesc o i = Ok (Z.testbit o (63 - i)) /\
     SetDesc o i = Ok (Z.lor o (2 ^ (63 - i))) /\
     SetAsc o i = Ok (Z.land o (Z.lnot (2 ^ (63 - i))))).
Proof.
  intros Hi. split; [|split].
  - intros [H|H].
    + unfold IsDesc, SetDesc, SetAsc, panics.
      destruct (Z.gtb_spec i 63); [|lia].
      repeat apply conj; eexists; reflexivity.
    + assert (H63 : i <= 63) by (unfold MinInt64 in H; lia).
      destruct (shift_count i Hi H63) as [Hneg _]. specialize (Hneg H).
      unfold IsDesc, SetDesc, SetAsc, shl_uint64, panics.
      destruct (Z.gtb_spec i 63); [lia|].
      destruct (Z.ltb_spec (wrap_int64 (63 - i)) 0); [|lia].
      repeat apply conj; eexists; reflexivity.
  - intros H.
    destruct (shift_count i Hi ltac:(lia)) as [_ Hid]. specialize (Hid ltac:(lia)).
    unfold IsDesc, SetDesc, SetAsc.
    destruct (Z.gtb_spec i 63); [lia|].
    rewrite Hid, shl_uint64_one_overflow by lia. cbn [bind].
    unfold shr_uint64. destruct (Z.ltb_spec (63 - i) 0); [lia|]. cbn [bind].
    rewrite Z.land_0_r, Z.shiftr_0_l, Z.lor_0_r.
    change (Z.lnot 0) with (-1). rewrite Z.land_m1_r. auto.
  - intros H. now rewrite IsDesc_bit, SetDesc_bit, SetAsc_bit.
Qed.

Lemma SortOrder_on_every_index_witness :
  (panics (IsDesc 5 MinInt64) /\ panics (SetDesc 5 MinInt64) /\ panics (SetAsc 5 MinInt64)) /\
  (IsDesc 5 (-7) = Ok false /\ SetDesc 5 (-7) = Ok 5 /\ SetAsc 5 (-7) = Ok 5) /\
  (IsDesc 5 61 = Ok (Z.testbit 5 2) /\
   SetDesc 5 61 = Ok (Z.lor 5 (2 ^ 2)) /\
   SetAsc 5 61 = Ok (Z.land 5 (Z.lnot (2 ^ 2)))).
Proof.
  split; [|split].
  - apply (proj1 (SortOrder_on_every_index 5 MinInt64
                    ltac:(unfold is_int64, MinInt64, MaxInt64; lia))).
    right. lia.
  - apply (proj1 (proj2 (SortOrder_on_every_index 5 (-7)
                           ltac:(unfold is_int64, MinInt64, MaxInt64; lia)))).
    unfold MinInt64. lia.
  - apply (proj2 (proj2 (SortOrder_on_every_index 5 61
                           ltac:(unfold is_int64, MinInt64, MaxInt64; lia)))).
    lia.
Defined.

(** [SetDesc(i)] makes component [i] descending and leaves the direction
    of every other component as it was. *)
Theorem SetDesc_then_IsDesc (o : SortOrder) (i j : Z) :
  0 <= i <= 63 -> 0 <= j <= 63 ->
  exists o', SetDesc o i = Ok o' /\
             IsDesc o' i = Ok true /\
             (j <> i -> IsDesc o' j = IsDesc o j).
Proof.
  intros Hi Hj. exists (Z.lor o (2 ^ (63 - i))).
  split; [now apply SetDesc_bit|].
  rewrite !IsDesc_bit by lia. split.
  - rewrite Z.lor_spec, Z.pow2_bits_eqb, Z.eqb_refl by lia. now rewrite orb_true_r.
  - intros Hne. rewrite Z.lor_spec, Z.pow2_bits_eqb by lia.
    destruct (Z.eqb_spec (63 - i) (63 - j)); [lia|]. now rewrite orb_false_r.
Qed.

Lemma SetDesc_then_IsDesc_witness :
  exists o', SetDesc 0 1 = Ok o' /\
             IsDesc o' 1 = Ok true /\
             (0 <> 1 -> IsDesc o' 0 = IsDesc 0 0).
Proof. apply (SetDesc_then_IsDesc 0 1 0); lia. Defined.

(** [SetAsc(i)] makes component [i] ascending and leaves the direction of
    every other component as it was. *)
Theorem SetAsc_then_IsDesc (o : SortOrder) (i j : Z) :
  0 <= i <= 63 -> 0 <= j <= 63 ->
  exists o', SetAsc o i = Ok o' /\
             IsDesc o' i = Ok false /\
             (j <> i -> IsDesc o' j = IsDesc o j).
Proof.
  intros Hi Hj. exists (Z.land o (Z.lnot (2 ^ (63 - i)))).
  split; [now apply SetAsc_bit|].
  rewrite !IsDesc_bit by lia. split.
  - rewrite Z.land_spec, Z.lnot_spec, Z.pow2_bits_eqb, Z.eqb_refl by lia.
    now rewrite andb_false_r.
  - intros Hne. rewrite Z.land_spec, Z.lnot_spec, Z.pow2_bits_eqb by lia.
    destruct (Z.eqb_spec (63 - i) (63 - j)); [lia|]. now rewrite andb_true_r.
Qed.

Lemma SetAsc_then_IsDesc_witness :
  exists o', SetAsc (2 ^ 63 + 2 ^ 62) 1 = Ok o' /\
             IsDesc o' 1 = Ok false /\
             (0 <> 1 -> IsDesc o' 0 = IsDesc (2 ^ 63 + 2 ^ 62) 0).
Proof. apply (SetAsc_then_IsDesc (2 ^ 63 + 2 ^ 62) 1 0); lia. Defined.

(** The setters keep a [SortOrder] within 64 bits, whatever the index
    they accept. *)
Theorem setters_stay_uint64 (o o' : SortOrder) (i : Z) :
  is_uint64 o ->
  SetDesc o i = Ok o' \/ SetAsc o i = Ok o' ->
  is_uint64 o'.
Proof.
  intros Ho H.
  assert (M : forall c mask, shl_uint64 1 c = Ok mask -> is_uint64 mask).
  { intros c mask. unfold shl_uint64. destruct (c <? 0); [discriminate|].
    intros E. assert (E' : mask = wrap_uint64 (Z.shiftl 1 c)) by congruence.
    subst mask. unfold is_uint64, wrap_uint64. apply Z.mod_pos_bound. lia. }
  apply is_uint64_iff in Ho. apply is_uint64_iff.
  unfold SetDesc, SetAsc in H. destruct (i >? 63).
  { destruct H; discriminate. }
  destruct (shl_uint64 1 (wrap_int64 (63 - i))) as [mask|e|m] eqn:E;
    cbn [bind] in H; try (destruct H; discriminate).
  apply M in E. apply is_uint64_iff in E.
  destruct H as [H|H].
  - assert (E' : o' = Z.lor o mask) by congruence. subst o'.
    now rewrite Z.land_lor_distr_l, Ho, E.
  - assert (E' : o' = Z.land o (Z.lnot mask)) by congruence. subst o'.
    rewrite <- Z.land_assoc, (Z.land_comm (Z.lnot _)), Z.land_assoc. now rewrite Ho.
Qed.

Lemma setters_stay_uint64_witness :
  is_uint64 (2 ^ 64 - 1 - 2 ^ 60).
Proof.
  apply (setters_stay_uint64 (2 ^ 64 - 1) (2 ^ 64 - 1 - 2 ^ 60) 3).
  - unfold is_uint64. lia.
  - right. reflexivity.
Defined.

(** A 64-bit [SortOrder] is determined by the answers of [IsDesc] on the
    indexes 0 to 63. *)
Theorem SortOrder_extensional (o1 o2 : SortOrder) :
  is_uint64 o1 -> is_uint64 o2 ->
  (forall i, 0 <= i <= 63 -> IsDesc o1 i = IsDesc o2 i) ->
  o1 = o2.
Proof.
  intros H1 H2 H. apply is_uint64_iff in H1. apply is_uint64_iff in H2.
  apply Z.bits_inj'. intros n Hn.
  destruct (Z.lt_ge_cases n 64) as [Hlt|Hge].
  - specialize (H (63 - n) ltac:(lia)).
    rewrite !IsDesc_bit in H by lia.
    replace (63 - (63 - n)) with n in H by lia. congruence.
  - rewrite <- H1, <- H2, !Z.land_spec, Z.ones_spec_high by lia.
    now rewrite !andb_false_r.
Qed.

Lemma SortOrder_extensional_witness : Z.lor 0 (2 ^ 63) = 2 ^ 63.
Proof.
  apply SortOrder_extensional.
  - unfold is_uint64. simpl. lia.
  - unfold is_uint64. lia.
  - intros i Hi. reflexivity.
Defined.

(** Setting then clearing a direction, and clearing then setting it: the
    last call decides, and on an order where the bit already had the first
    value the two calls restore it; each setter is idempotent. *)
Theorem setters_compose (o : SortOrder) (i : Z) :
  0 <= i <= 63 ->
  (d <- SetDesc o i ;; SetAsc d i) = SetAsc o i /\
  (a <- SetAsc o i ;; SetDesc a i) = SetDesc o i /\
  (d <- SetDesc o i ;; SetDesc d i) = SetDesc o i /\
  (a <- SetAsc o i ;; SetAsc a i) = SetAsc o i /\
  (IsDesc o i = Ok false -> (d <- SetDesc o i ;; SetAsc d i) = Ok o) /\
  (IsDesc o i = Ok true -> (a <- SetAsc o i ;; SetDesc a i) = Ok o).
Proof.
  intros Hi. rewrite IsDesc_bit by lia.
  rewrite (SetDesc_bit o), (SetAsc_bit o) by lia. cbn [bind].
  rewrite !SetDesc_bit, !SetAsc_bit by lia.
  set (k := 63 - i). assert (Hk : 0 <= k) by (unfold k; lia). clearbody k.
  assert (E1 : Z.land (Z.lor o (2 ^ k)) (Z.lnot (2 ^ k)) = Z.land o (Z.lnot (2 ^ k))).
  { apply Z.bits_inj'. intros n Hn.
    rewrite !Z.land_spec, Z.lor_spec, Z.lnot_spec, Z.pow2_bits_eqb by lia.
    destruct (Z.testbit o n), (k =? n); reflexivity. }
  assert (E2 : Z.lor (Z.land o (Z.lnot (2 ^ k))) (2 ^ k) = Z.lor o (2 ^ k)).
  { apply Z.bits_inj'. intros n Hn.
    rewrite !Z.lor_spec, Z.land_spec, Z.lnot_spec, Z.pow2_bits_eqb by lia.
    destruct (Z.testbit o n), (k =? n); reflexivity. }
  repeat apply conj.
  - now rewrite E1.
  - now rewrite E2.
  - now rewrite <- Z.lor_assoc, Z.lor_diag.
  - now rewrite <- Z.land_assoc, Z.land_diag.
  - intros B. inversion B as [B']. rewrite E1. apply (f_equal (@Ok Z)).
    apply Z.bits_inj'. intros n Hn.
    rewrite Z.land_spec, Z.lnot_spec, Z.pow2_bits_eqb by lia.
    destruct (Z.eqb_spec k n) as [<-|]; [rewrite B'|]; simpl; now rewrite ?andb_true_r.
  - intros B. inversion B as [B']. rewrite E2. apply (f_equal (@Ok Z)).
    apply Z.bits_inj'. intros n Hn.
    rewrite Z.lor_spec, Z.pow2_bits_eqb by lia.
    destruct (Z.eqb_spec k n) as [<-|]; [rewrite B'|]; simpl; now rewrite ?orb_false_r.
Qed.

Lemma setters_compose_witness :
  (d <- SetDesc 5 0 ;; SetAsc d 0) = Ok 5 /\ (a <- SetAsc (2 ^ 63) 0 ;; SetDesc a 0) = Ok (2 ^ 63).
Proof.
  split.
  - apply (proj1 (proj2 (proj2 (proj2 (proj2 (setters_compose 5 0 ltac:(lia))))))).
    reflexivity.
  - apply (proj2 (proj2 (proj2 (proj2 (proj2 (setters_compose (2 ^ 63) 0 ltac:(lia))))))).
    reflexivity.
Defined.

(** ** The boundaries of a range *)

Lemma in_range_mono (lo lo' hi hi' k : bytes) :
  bytes_leb lo lo' = true -> bytes_leb hi' hi = true ->
  in_range lo' hi' k = true -> in_range lo hi k = true.
Proof.
  unfold in_range. intros Hl Hh H. apply andb_prop in H. destruct H as [L U].
  rewrite (bytes_leb_trans lo lo' k Hl L). simpl.
  exact (bytes_ltb_leb_trans k hi' hi U Hh).
Qed.

(** What lies between a byte string and its 0xFF extension: its
    extensions by a suffix that does not start with 0xFF. *)
Lemma in_prefix_range (b k : bytes) :
  in_range b (b ++ [xFF]) k = true <->
  exists rest, k = b ++ rest /\ hd_error rest <> Some xFF.
Proof.
  split.
  - intros H. unfold in_range in H. apply andb_prop in H. destruct H as [L U].
    destruct (between_prefix b k xFF L U) as [rest ->].
    exists rest. split; [reflexivity|].
    intros Hh. destruct rest as [|x r]; [discriminate|].
    simpl in Hh. inversion Hh; subst x.
    unfold bytes_ltb in U. rewrite bytes_compare_app in U.
    cbn [bytes_compare] in U. rewrite Z.compare_refl in U. destruct r; discriminate.
  - intros [rest [-> Hh]]. unfold in_range.
    rewrite bytes_leb_prefix. simpl. now apply bytes_ltb_below_xFF.
Qed.

Section MoreBoundaries.

Context {codec : Codec}.

(** The exclusive boundaries lie within the inclusive ones: for the same
    bounds and direction the two syntheses succeed together, and every
    byte string inside the exclusive interval is inside the inclusive
    one. *)
Theorem exclusive_within_inclusive (t : Tree) (min max : option Key) (desc : bool) :
  (completes (buildInclusiveBoundaries t min max desc) <->
   completes (buildExclusiveBoundaries t min max desc)) /\
  (forall si ei se ee,
     buildInclusiveBoundaries t min max desc = Ok (si, ei) ->
     buildExclusiveBoundaries t min max desc = Ok (se, ee) ->
     bytes_leb si se = true /\ bytes_leb ee ei = true /\
     forall k, in_range se ee k = true -> in_range si ei k = true).
Proof.
  unfold buildInclusiveBoundaries, buildExclusiveBoundaries,
    buildStartKeyInclusive, buildStartKeyExclusive,
    buildEndKeyInclusive, buildEndKeyExclusive, completes.
  destruct min as [kmin|], max as [kmax|].
  - destruct (Encode kmin (Namespace_ t) (Order t)) as [b|e|m]; cbn [bind];
      [|split; [split; intros [? ?]; discriminate | discriminate]..].
    destruct (Encode kmax (Namespace_ t) (Order t)) as [b'|e|m]; cbn [bind];
      [|split; [split; intros [? ?]; discriminate | discriminate]..].
    split; [split; eauto|].
    intros si ei se ee Hi He. inversion Hi; inversion He; subst.
    assert (L : bytes_leb si (si ++ [xFF]) = true) by apply bytes_leb_prefix.
    assert (U : bytes_leb ee (ee ++ [xFF]) = true) by apply bytes_leb_prefix.
    repeat split; auto. intros k. now apply in_range_mono.
  - destruct (Encode kmin (Namespace_ t) (Order t)) as [b|e|m]; cbn [bind];
      [|split; [split; intros [? ?]; discriminate | discriminate]..].
    destruct (buildMaxKeyForType t (Some kmin) desc) as [h|e|m]; cbn [bind];
      [|split; [split; intros [? ?]; discriminate | discriminate]..].
    split; [split; eauto|].
    intros si ei se ee Hi He. inversion Hi; inversion He; subst.
    assert (L : bytes_leb si (si ++ [xFF]) = true) by apply bytes_leb_prefix.
    assert (U : bytes_leb ee ee = true) by apply bytes_leb_refl.
    repeat split; auto. intros k. now apply in_range_mono.
  - destruct (buildMinKeyForType t (Some kmax) desc) as [l|e|m]; cbn [bind];
      [|split; [split; intros [? ?]; discriminate | discriminate]..].
    destruct (Encode kmax (Namespace_ t) (Order t)) as [b'|e|m]; cbn [bind];
      [|split; [split; intros [? ?]; discriminate | discriminate]..].
    split; [split; eauto|].
    intros si ei se ee Hi He. inversion Hi; inversion He; subst.
    assert (L : bytes_leb se se = true) by apply bytes_leb_refl.
    assert (U : bytes_leb ee (ee ++ [xFF]) = true) by apply bytes_leb_prefix.
    repeat split; auto. intros k. now apply in_range_mono.
  - destruct (buildMinKeyForType t None desc) as [l|e|m]; cbn [bind];
      [|split; [split; intros [? ?]; discriminate | discriminate]..].
    destruct (buildMaxKeyForType t None desc) as [h|e|m]; cbn [bind];
      [|split; [split; intros [? ?]; discriminate | discriminate]..].
    split; [split; eauto|].
    intros si ei se ee Hi He. inversion Hi; inversion He; subst.
    assert (L : bytes_leb se se = true) by apply bytes_leb_refl.
    assert (U : bytes_leb ee ee = true) by apply bytes_leb_refl.
    repeat split; auto.
Qed.

(** A range whose two bounds are the same key [K], of encoding [b]:
    inclusive, it is the interval from [b] to [b ++ [0xFF]], which holds
    exactly the extensions of [b] by a suffix that does not start with
    0xFF - the keys that have [K] as a prefix; exclusive, it holds
    nothing. *)
Theorem same_key_range (t : Tree) (K : Key) (b : bytes) (d : bool) :
  Encode K (Namespace_ t) (Order t) = Ok b ->
  IsDesc (Order t) (last_index (values K)) = Ok d ->
  boundaries t (mkRange (Some K) (Some K) false) = Ok (b, b ++ [xFF]) /\
  (forall k, in_range b (b ++ [xFF]) k = true <->
             exists rest, k = b ++ rest /\ hd_error rest <> Some xFF) /\
  boundaries t (mkRange (Some K) (Some K) true) = Ok (b ++ [xFF], b) /\
  (forall k, in_range (b ++ [xFF]) b k = false).
Proof.
  intros Hb Hd.
  assert (B : forall excl, boundaries t (mkRange (Some K) (Some K) excl)
                           = if negb excl then Ok (b, b ++ [xFF]) else Ok (b ++ [xFF], b)).
  { intros excl. unfold boundaries, isDescRange. cbn [Min Max Exclusive].
    rewrite Hd. cbn [bind].
    unfold buildInclusiveBoundaries, buildExclusiveBoundaries,
      buildStartKeyInclusive, buildStartKeyExclusive,
      buildEndKeyInclusive, buildEndKeyExclusive.
    destruct d, excl; cbn [negb]; rewrite Hb; reflexivity. }
  split; [apply (B false)|]. split; [apply in_prefix_range|].
  split; [apply (B true)|].
  intros k. unfold in_range.
  destruct (bytes_leb (b ++ [xFF]) k) eqn:L; [|reflexivity].
  destruct (bytes_ltb k b) eqn:U; [|reflexivity].
  pose proof (bytes_ltb_trans b (b ++ [xFF]) b (bytes_ltb_extend b xFF [])
                (bytes_leb_ltb_trans _ _ _ L U)) as C.
  rewrite bytes_ltb_irrefl in C. discriminate.
Qed.

(** A range with one bound absent and the other a key without components
    (as [NewKey()] or a key holding only an encoded form): boundary
    synthesis panics on the slice [values[:len-1]], and [IterateOnRange]
    with it, before the session is asked for an iterator. *)
Theorem one_sided_range_without_components (t : Tree) (K : Key) (excl : bool) :
  values K = [] ->
  panics (boundaries t (mkRange (Some K) None excl)) /\
  panics (boundaries t (mkRange None (Some K) excl)) /\
  (forall (S : Type) (session : engine.Session S) (A : Type) reverse
          (fn : callback A) a (s : S) rng,
     rng = mkRange (Some K) None excl \/ rng = mkRange None (Some K) excl ->
     panics (ret (IterateOnRange t (Some rng) reverse fn a s)) /\
     closure (IterateOnRange t (Some rng) reverse fn a s) = a /\
     iterator (IterateOnRange t (Some rng) reverse fn a s) = None).
Proof.
  intros Hv.
  assert (P1 : boundaries t (mkRange (Some K) None excl)
               = Panic "slice bounds out of range [:-1]").
  { unfold boundaries, isDescRange. cbn [Min Max Exclusive].
    rewrite Hv. change (last_index (@nil Value)) with (-1).
    rewrite IsDesc_minus_one. cbn [bind negb].
    unfold buildInclusiveBoundaries, buildExclusiveBoundaries,
      buildStartKeyInclusive, buildStartKeyExclusive, Encode.
    rewrite Hv.
    destruct excl, (Encoded K); cbn [negb bind encodeValues];
      unfold buildMaxKeyForType; rewrite Hv; reflexivity. }
  assert (P2 : boundaries t (mkRange None (Some K) excl)
               = Panic "slice bounds out of range [:-1]").
  { unfold boundaries, isDescRange. cbn [Min Max Exclusive].
    rewrite Hv. change (last_index (@nil Value)) with (-1).
    rewrite IsDesc_minus_one. cbn [bind negb].
    unfold buildInclusiveBoundaries, buildExclusiveBoundaries, buildMinKeyForType.
    rewrite Hv. destruct excl; reflexivity. }
  split; [rewrite P1; eexists; reflexivity|].
  split; [rewrite P2; eexists; reflexivity|].
  intros S session A reverse fn a s rng [-> | ->]; unfold IterateOnRange;
    [rewrite P1 | rewrite P2]; cbn [ret closure iterator];
    (split; [eexists; reflexivity | split; reflexivity]).
Qed.

End MoreBoundaries.

Section MoreBoundaryChecks.

#[local] Existing Instance demo.codec.
#[local] Existing Instance mem.session.

Lemma exclusive_within_inclusive_witness :
  in_range (demo.EncodeInt 12 ++ [Byte.x20] ++ demo.EncodeInt 1)
    ((demo.EncodeInt 12 ++ [Byte.x20] ++ demo.EncodeInt 2) ++ [xFF])
    (demo.EncodeInt 12 ++ [Byte.x20] ++ demo.EncodeInt 1 ++ [xFF; xFF]) = true.
Proof.
  apply (proj2 (exclusive_within_inclusive demo.t_asc (Some demo.k_1)
                  (Some (NewKey (codec := demo.codec) [demo.VInt 2])) false)
           (demo.EncodeInt 12 ++ [Byte.x20] ++ demo.EncodeInt 1)
           ((demo.EncodeInt 12 ++ [Byte.x20] ++ demo.EncodeInt 2) ++ [xFF])
           ((demo.EncodeInt 12 ++ [Byte.x20] ++ demo.EncodeInt 1) ++ [xFF])
           (demo.EncodeInt 12 ++ [Byte.x20] ++ demo.EncodeInt 2)).
  - vm_compute. reflexivity.
  - vm_compute. reflexivity.
  - vm_compute. reflexivity.
Defined.

Lemma same_key_range_witness :
  boundaries demo.t_asc (mkRange (Some demo.k_1) (Some demo.k_1) false)
  = Ok (demo.EncodeInt 12 ++ [Byte.x20] ++ demo.EncodeInt 1,
        (demo.EncodeInt 12 ++ [Byte.x20] ++ demo.EncodeInt 1) ++ [xFF]) /\
  boundaries demo.t_asc (mkRange (Some demo.k_1) (Some demo.k_1) true)
  = Ok ((demo.EncodeInt 12 ++ [Byte.x20] ++ demo.EncodeInt 1) ++ [xFF],
        demo.EncodeInt 12 ++ [Byte.x20] ++ demo.EncodeInt 1).
Proof.
  destruct (same_key_range demo.t_asc demo.k_1
              (demo.EncodeInt 12 ++ [Byte.x20] ++ demo.EncodeInt 1) false
              ltac:(vm_compute; reflexivity) ltac:(vm_compute; reflexivity))
    as [H1 [_ [H2 _]]].
  split; [exact H1 | exact H2].
Defined.

Lemma one_sided_range_without_components_witness :
  panics (boundaries demo.t_asc (mkRange (Some (mkKey [] (Some [Byte.x01]))) None true)) /\
  panics (boundaries demo.t_asc (mkRange None (Some (mkKey [] (Some [Byte.x01]))) true)).
Proof.
  destruct (one_sided_range_without_components demo.t_asc
              (mkKey [] (Some [Byte.x01])) true eq_refl) as [H1 [H2 _]].
  split; [exact H1 | exact H2].
Defined.

End MoreBoundaryChecks.

(** ** A walk without errors *)

Section FullWalk.

Context {codec : Codec}.

Lemma visit_readable {A : Type} (fn : callback A) (l : list (bytes * bytes)) (a : A) :
  (forall a k v, snd (fn a k v) = None) ->
  visit fn (readable l) a = (fold_left (handed fn) l a, None).
Proof.
  intros Hfn. revert a. induction l as [|[k v] l IH]; intros a; [reflexivity|].
  cbn [readable map visit fold_left fst snd]. unfold handed at 2. cbn [fst snd].
  specialize (Hfn a (mkKey [] (Some k)) (if is_empty_value v then None else Some v)).
  destruct (fn a (mkKey [] (Some k)) (if is_empty_value v then None else Some v))
    as [a' e]. cbn [snd] in Hfn. subst e. cbn [fst]. apply IH.
Qed.

Lemma iterate_readable {A : Type} (fn : callback A) (it : engine.Iterator)
  (l : list (bytes * bytes)) (reverse : bool) (a : A) :
  engine.items it = readable l ->
  (forall a k v, snd (fn a k v) = None) ->
  ret (iterate (Ok it) reverse fn a) = of_error (engine.Error it) /\
  closure (iterate (Ok it) reverse fn a)
  = fold_left (handed fn) (if reverse then rev l else l) a.
Proof.
  intros Hi Hfn. destruct (iterate_visit fn it reverse a) as [it' [E _]].
  rewrite E. cbn [ret closure].
  assert (P : positions reverse it = readable (if reverse then rev l else l)).
  { unfold positions. rewrite Hi. destruct reverse; [|reflexivity].
    unfold readable. now rewrite map_rev. }
  rewrite P, (visit_readable fn _ a Hfn). auto.
Qed.

Lemma fold_collect (l : list (bytes * bytes)) (acc : list (bytes * option bytes)) :
  fold_left (handed collect) l acc = acc ++ map delivered l.
Proof.
  revert acc. induction l as [|x l IH]; intros acc; simpl.
  - now rewrite app_nil_r.
  - rewrite IH. unfold handed, collect, delivered. cbn [fst snd Encoded].
    now rewrite <- app_assoc.
Qed.

Section OnSession.

Context {S : Type} {session : engine.Session S}.

(** When every value can be read and the callback never fails,
    [IterateOnRange] calls the callback once on each position of the
    iterator, first to last - last to first in reverse -, with a key
    holding the encoded form only and the value decoded by the rule of
    [Get]; it then returns the iterator's terminal error. *)
Theorem iteration_hands_every_position {A : Type} (t : Tree) (rng : option Range)
  (reverse : bool) (fn : callback A) (a : A) (s : S)
  (start end_ : bytes) (it : engine.Iterator) (l : list (bytes * bytes)) :
  boundaries t (match rng with None => emptyRange | Some r => r end) = Ok (start, end_) ->
  engine.NewIterator s (engine.mkIterOptions start end_) = Ok it ->
  engine.items it = readable l ->
  (forall a k v, snd (fn a k v) = None) ->
  ret (IterateOnRange t rng reverse fn a s) = of_error (engine.Error it) /\
  closure (IterateOnRange t rng reverse fn a s)
  = fold_left (handed fn) (if reverse then rev l else l) a.
Proof.
  intros Hb Hn Hi Hfn. unfold IterateOnRange. rewrite Hb, Hn.
  now apply iterate_readable.
Qed.

(** Reverse equivalence: on the same iterator, all of whose values can be
    read, the reverse iteration hands the callback the forward sequence
    reversed. *)
Theorem reverse_iteration_reverses (t : Tree) (rng : option Range) (s : S)
  (start end_ : bytes) (it : engine.Iterator) (l : list (bytes * bytes)) :
  boundaries t (match rng with None => emptyRange | Some r => r end) = Ok (start, end_) ->
  engine.NewIterator s (engine.mkIterOptions start end_) = Ok it ->
  engine.items it = readable l ->
  closure (IterateOnRange t rng false collect [] s) = map delivered l /\
  closure (IterateOnRange t rng true collect [] s)
  = rev (closure (IterateOnRange t rng false collect [] s)).
Proof.
  intros Hb Hn Hi. unfold IterateOnRange. rewrite Hb, Hn.
  destruct (iterate_readable collect it l false [] Hi ltac:(reflexivity)) as [_ F].
  destruct (iterate_readable collect it l true [] Hi ltac:(reflexivity)) as [_ R].
  rewrite F, R, !fold_collect. cbn [app]. split; [reflexivity|].
  now rewrite map_rev.
Qed.

End OnSession.

End FullWalk.

Section FullWalkChecks.

#[local] Existing Instance demo.codec.
#[local] Existing Instance mem.session.

Lemma iteration_hands_every_position_witness :
  closure (IterateOnRange demo.t_asc None true demo.record [] demo.s3)
  = [Some [Byte.x63]; Some [Byte.x62]; Some [Byte.x61]].
Proof.
  destruct (iteration_hands_every_position demo.t_asc None true demo.record [] demo.s3
              (demo.EncodeInt 12) (demo.EncodeInt 12 ++ [xFF])
              (engine.mkIterator (readable demo.s3) (-1) None 0) demo.s3
              ltac:(vm_compute; reflexivity) ltac:(vm_compute; reflexivity)
              eq_refl ltac:(reflexivity)) as [_ H].
  rewrite H. vm_compute. reflexivity.
Defined.

Lemma reverse_iteration_reverses_witness :
  closure (IterateOnRange demo.t_asc None true collect [] demo.s3)
  = rev (closure (IterateOnRange demo.t_asc None false collect [] demo.s3)).
Proof.
  apply (reverse_iteration_reverses demo.t_asc None demo.s3
           (demo.EncodeInt 12) (demo.EncodeInt 12 ++ [xFF])
           (engine.mkIterator (readable demo.s3) (-1) None 0) demo.s3).
  - vm_compute. reflexivity.
  - vm_compute. reflexivity.
  - reflexivity.
Defined.

End FullWalkChecks.

(** ** The tree on a store *)

Lemma lookup_remove (k : bytes) (s : mem.store) : mem.lookup k (mem.remove k s) = None.
Proof.
  unfold mem.remove.
  rewrite (lookup_filter (fun k' => negb (bytes_eqb k k'))).
  now rewrite bytes_eqb_refl.
Qed.

Lemma lookup_remove_other (k k0 : bytes) (s : mem.store) :
  k0 <> k -> mem.lookup k0 (mem.remove k s) = mem.lookup k0 s.
Proof.
  intros Hne. unfold mem.remove.
  rewrite (lookup_filter (fun k' => negb (bytes_eqb k k'))).
  destruct (bytes_eqb k k0) eqn:E; [|reflexivity].
  apply bytes_eqb_eq in E. congruence.
Qed.

Lemma in_upsert (k v : bytes) (s : mem.store) : In (k, v) (mem.upsert k v s).
Proof.
  induction s as [|[k' v'] s IH]; simpl; [auto|].
  destruct (bytes_compare k k'); simpl; auto.
Qed.

Section OnStore.

Context {codec : Codec}.

#[local] Existing Instance mem.session.

Lemma stored_value_decodes (v : bytes) :
  is_empty_value (stored_value v) = is_empty_value v.
Proof. destruct v; reflexivity. Qed.

Lemma Put_mem (t : Tree) (K : Key) (kb v : bytes) (s : mem.store) :
  Encode K (Namespace_ t) (Order t) = Ok kb ->
  Put t K v s = (mem.upsert kb (stored_value v) s, Ok tt).
Proof. intros H. unfold Put. rewrite H. reflexivity. Qed.

Lemma Get_mem (t : Tree) (K : Key) (kb : bytes) (s : mem.store) :
  Encode K (Namespace_ t) (Order t) = Ok kb ->
  Get t K s = match mem.lookup kb s with
              | Some v => Ok (if is_empty_value v then None else Some v)
              | None => Err ErrKeyNotFound
              end.
Proof.
  intros H. unfold Get. rewrite H. cbn [bind engine.Get mem.session].
  unfold mem.Get. destruct (mem.lookup kb s) as [v|]; [|reflexivity].
  cbn [bind]. now destruct (is_empty_value v).
Qed.

Lemma Exists_mem (t : Tree) (K : Key) (kb : bytes) (s : mem.store) :
  Encode K (Namespace_ t) (Order t) = Ok kb ->
  Exists t K s = match mem.lookup kb s with Some _ => Ok true | None => Ok false end.
Proof. intros H. unfold Exists. rewrite H. reflexivity. Qed.

(** [Insert], [Put], [Get], [Exists] and [Delete] on one key: [Insert]
    on a free key and [Put] on any key write a value that [Get] then
    returns - as no value when it is empty or starts with 0x00 -;
    [Insert] on a stored key fails with [ErrKeyAlreadyExists] and writes
    nothing; [Delete] removes a stored key and fails with
    [ErrKeyNotFound], like [Get], on a missing one. *)
Theorem store_operations (t : Tree) (K : Key) (kb v : bytes) (s : mem.store) :
  Encode K (Namespace_ t) (Order t) = Ok kb ->
  (mem.lookup kb s = None ->
     snd (Insert t K v s) = Ok tt /\
     Get t K (fst (Insert t K v s)) = Ok (if is_empty_value v then None else Some v) /\
     Exists t K (fst (Insert t K v s)) = Ok true) /\
  (mem.lookup kb s <> None -> Insert t K v s = (s, Err ErrKeyAlreadyExists)) /\
  (snd (Put t K v s) = Ok tt /\
   Get t K (fst (Put t K v s)) = Ok (if is_empty_value v then None else Some v) /\
   Exists t K (fst (Put t K v s)) = Ok true) /\
  (mem.lookup kb s <> None ->
     snd (Delete t K s) = Ok tt /\
     Get t K (fst (Delete t K s)) = Err ErrKeyNotFound /\
     Exists t K (fst (Delete t K s)) = Ok false) /\
  (mem.lookup kb s = None ->
     Delete t K s = (s, Err ErrKeyNotFound) /\
     Get t K s = Err ErrKeyNotFound /\
     Exists t K s = Ok false).
Proof.
  intros H.
  assert (W : Get t K (mem.upsert kb (stored_value v) s)
              = Ok (if is_empty_value v then None else Some v) /\
              Exists t K (mem.upsert kb (stored_value v) s) = Ok true).
  { rewrite (Get_mem t K kb _ H), (Exists_mem t K kb _ H), lookup_upsert.
    destruct v as [|b r]; [split; reflexivity|].
    change (stored_value (b :: r)) with (b :: r). split; reflexivity. }
  split; [|split; [|split; [|split]]].
  - intros L. unfold Insert. rewrite H. cbn [engine.Insert mem.session].
    unfold mem.Insert. rewrite L. cbn [fst snd of_error]. split; [reflexivity|exact W].
  - intros L. unfold Insert. rewrite H. cbn [engine.Insert mem.session].
    unfold mem.Insert. destruct (mem.lookup kb s); [reflexivity|contradiction].
  - rewrite (Put_mem t K kb v s H). cbn [fst snd]. split; [reflexivity|exact W].
  - intros L. unfold Delete. rewrite H. cbn [engine.Delete mem.session].
    unfold mem.Delete. destruct (mem.lookup kb s); [|contradiction].
    cbn [fst snd of_error].
    rewrite (Get_mem t K kb _ H), (Exists_mem t K kb _ H), lookup_remove. auto.
  - intros L. unfold Delete. rewrite H. cbn [engine.Delete mem.session].
    unfold mem.Delete. rewrite (Get_mem t K kb _ H), (Exists_mem t K kb _ H), L. auto.
Qed.

(** Writing or deleting one key leaves every key of a different encoded
    form, in this tree or another, as it was. *)
Theorem other_keys_untouched (t t' : Tree) (K K' : Key) (kb kb' v : bytes) (s : mem.store) :
  Encode K (Namespace_ t) (Order t) = Ok kb ->
  Encode K' (Namespace_ t') (Order t') = Ok kb' ->
  kb' <> kb ->
  Get t' K' (fst (Insert t K v s)) = Get t' K' s /\
  Get t' K' (fst (Put t K v s)) = Get t' K' s /\
  Get t' K' (fst (Delete t K s)) = Get t' K' s /\
  Exists t' K' (fst (Insert t K v s)) = Exists t' K' s /\
  Exists t' K' (fst (Put t K v s)) = Exists t' K' s /\
  Exists t' K' (fst (Delete t K s)) = Exists t' K' s.
Proof.
  intros H H' Hne.
  assert (I : mem.lookup kb' (fst (Insert t K v s)) = mem.lookup kb' s).
  { unfold Insert. rewrite H. cbn [engine.Insert mem.session]. unfold mem.Insert.
    destruct (mem.lookup kb s); cbn [fst]; [reflexivity|].
    now apply lookup_upsert_other. }
  assert (P : mem.lookup kb' (fst (Put t K v s)) = mem.lookup kb' s).
  { rewrite (Put_mem t K kb v s H). cbn [fst]. now apply lookup_upsert_other. }
  assert (D : mem.lookup kb' (fst (Delete t K s)) = mem.lookup kb' s).
  { unfold Delete. rewrite H. cbn [engine.Delete mem.session]. unfold mem.Delete.
    destruct (mem.lookup kb s); cbn [fst]; [|reflexivity].
    now apply lookup_remove_other. }
  rewrite !(Get_mem t' K' kb' _ H'), !(Exists_mem t' K' kb' _ H'), I, P, D.
  repeat split.
Qed.

End OnStore.

Section OnStoreChecks.

#[local] Existing Instance demo.codec.
#[local] Existing Instance mem.session.

(** A value that starts with 0x00 is written as it is and read as no
    value. *)
Lemma store_operations_witness :
  Put demo.t_asc demo.k_1 [x00; Byte.x07] []
  = ([(demo.EncodeInt 12 ++ [Byte.x20] ++ demo.EncodeInt 1, [x00; Byte.x07])], Ok tt) /\
  Get demo.t_asc demo.k_1 (fst (Put demo.t_asc demo.k_1 [x00; Byte.x07] ([] : mem.store)))
  = Ok None /\
  Delete demo.t_asc demo.k_1 ([] : mem.store) = ([], Err ErrKeyNotFound).
Proof.
  destruct (store_operations demo.t_asc demo.k_1
              (demo.EncodeInt 12 ++ [Byte.x20] ++ demo.EncodeInt 1)
              [x00; Byte.x07] ([] : mem.store) ltac:(vm_compute; reflexivity))
    as [_ [_ [[_ [G _]] [_ D]]]].
  split; [reflexivity|]. split; [exact G|]. apply D. reflexivity.
Defined.

Lemma other_keys_untouched_witness :
  Get demo.t_asc demo.k_1_10 (fst (Delete demo.t_asc demo.k_1_20 demo.s3))
  = Get demo.t_asc demo.k_1_10 demo.s3.
Proof.
  apply (other_keys_untouched demo.t_asc demo.t_asc demo.k_1_20 demo.k_1_10
           (demo.EncodeInt 12 ++ [Byte.x20] ++ demo.EncodeInt 1
              ++ [Byte.x20] ++ demo.EncodeInt 20)
           (demo.EncodeInt 12 ++ [Byte.x20] ++ demo.EncodeInt 1
              ++ [Byte.x20] ++ demo.EncodeInt 10)
           [] demo.s3).
  - vm_compute. reflexivity.
  - vm_compute. reflexivity.
  - vm_compute. discriminate.
Defined.

End OnStoreChecks.

(** ** Iterating on a store *)

Section IterateOnStore.

Context {codec : Codec}.

#[local] Existing Instance mem.session.

Lemma IterateOnRange_collect (t : Tree) (rng : option Range) (reverse : bool)
  (s : mem.store) (start end_ : bytes) :
  boundaries t (match rng with None => emptyRange | Some r => r end) = Ok (start, end_) ->
  closure (IterateOnRange t rng reverse collect [] s)
  = map delivered (if reverse then rev (mem.between start end_ s)
                   else mem.between start end_ s).
Proof.
  intros Hb. unfold IterateOnRange. rewrite Hb.
  cbn [engine.NewIterator mem.session]. unfold mem.NewIterator.
  cbn [engine.LowerBound engine.UpperBound].
  destruct (iterate_readable collect
              (engine.mkIterator (readable (mem.between start end_ s)) (-1) None 0)
              (mem.between start end_ s) reverse [] eq_refl ltac:(reflexivity)) as [_ C].
  unfold readable in C. rewrite C. apply fold_collect.
Qed.

(** On a store, the callback of [IterateOnRange] is handed the stored
    entries whose key lies within the boundaries of the range, and no
    other: each with its value decoded by the rule of [Get]. *)
Theorem iteration_stays_within_boundaries (t : Tree) (rng : option Range)
  (reverse : bool) (s : mem.store) (start end_ : bytes) (k : bytes) (v : option bytes) :
  boundaries t (match rng with None => emptyRange | Some r => r end) = Ok (start, end_) ->
  (In (k, v) (closure (IterateOnRange t rng reverse collect [] s)) <->
   exists w, In (k, w) s /\ in_range start end_ k = true /\
             v = if is_empty_value w then None else Some w).
Proof.
  intros Hb. rewrite (IterateOnRange_collect t rng reverse s start end_ Hb).
  rewrite in_map_iff. unfold mem.between. split.
  - intros [[k' w] [E Hin]]. unfold delivered in E. cbn [fst snd] in E.
    inversion E; subst. exists w.
    assert (Hin' : In (k, w) (filter (fun kv => in_range start end_ (fst kv)) s)).
    { destruct reverse; [now apply in_rev in Hin | exact Hin]. }
    apply filter_In in Hin'. cbn [fst] in Hin'. tauto.
  - intros [w [Hin [Hr ->]]]. exists (k, w). split; [reflexivity|].
    assert (Hin' : In (k, w) (filter (fun kv => in_range start end_ (fst kv)) s)).
    { apply filter_In. cbn [fst]. auto. }
    destruct reverse; [now apply in_rev in Hin' | exact Hin'].
Qed.


(** A key written with [Put] is handed to the callback of the iteration
    on the whole tree, in either direction, with the value [Get]
    returns. *)
Theorem put_is_iterated (t : Tree) (K : Key) (kb v : bytes) (reverse : bool) (s : mem.store) :
  tags_below_xFF ->
  Encoded K = None ->
  Encode K (Namespace_ t) (Order t) = Ok kb ->
  In (kb, if is_empty_value v then None else Some v)
     (closure (IterateOnRange t None reverse collect [] (fst (Put t K v s)))).
Proof.
  intros Htag Hc Hk.
  rewrite (IterateOnRange_collect t None reverse _ _ _ (boundaries_whole t)).
  rewrite (Put_mem t K kb v s Hk). cbn [fst].
  apply in_map_iff. exists (kb, stored_value v). split.
  - unfold delivered. cbn [fst snd]. rewrite stored_value_decodes.
    destruct v as [|b r]; reflexivity.
  - assert (Hin : In (kb, stored_value v)
                    (mem.between (EncodeInt (int64_of_ns (Namespace_ t)) ++ [])
                       (buildLastKey t) (mem.upsert kb (stored_value v) s))).
    { unfold mem.between. apply filter_In. split; [apply in_upsert|].
      cbn [fst]. rewrite app_nil_r. exact (Encode_in_whole t K kb Htag Hc Hk). }
    destruct reverse; [now apply in_rev in Hin | exact Hin].
Qed.

End IterateOnStore.

Section IterateOnStoreChecks.

#[local] Existing Instance demo.codec.
#[local] Existing Instance mem.session.

Lemma iteration_stays_within_boundaries_witness :
  In (demo.EncodeInt 12 ++ [Byte.x20] ++ demo.EncodeInt 1 ++ [Byte.x20] ++ demo.EncodeInt 20,
      Some [Byte.x62])
     (closure (IterateOnRange demo.t_asc
                 (Some (mkRange (Some demo.k_1_10) (Some demo.k_1_20) false))
                 false collect [] demo.s3)).
Proof.
  apply (proj2 (iteration_stays_within_boundaries demo.t_asc
                  (Some (mkRange (Some demo.k_1_10) (Some demo.k_1_20) false))
                  false demo.s3
                  (demo.EncodeInt 12 ++ [Byte.x20] ++ demo.EncodeInt 1
                     ++ [Byte.x20] ++ demo.EncodeInt 10)
                  ((demo.EncodeInt 12 ++ [Byte.x20] ++ demo.EncodeInt 1
                      ++ [Byte.x20] ++ demo.EncodeInt 20) ++ [xFF])
                  _ _ ltac:(vm_compute; reflexivity))).
  exists [Byte.x62]. split; [|split].
  - vm_compute. right. left. reflexivity.
  - vm_compute. reflexivity.
  - reflexivity.
Defined.


Lemma put_is_iterated_witness :
  In (demo.EncodeInt 12 ++ [Byte.x20] ++ demo.EncodeInt 1, None)
     (closure (IterateOnRange demo.t_asc None true collect []
                 (fst (Put demo.t_asc demo.k_1 [x00; Byte.x07] demo.s3)))).
Proof.
  apply (put_is_iterated demo.t_asc demo.k_1
           (demo.EncodeInt 12 ++ [Byte.x20] ++ demo.EncodeInt 1) [x00; Byte.x07] true demo.s3
           demo_tags_below_xFF eq_refl).
  vm_compute. reflexivity.
Defined.

End IterateOnStoreChecks.

(** ** Truncating, and the life of a transient tree *)

Section TruncateOnStore.

Context {codec : Codec}.

#[local] Existing Instance mem.session.

Lemma Encode_prefix (K : Key) (ns : Namespace) (order : SortOrder) (kb : bytes) :
  Encoded K = None -> Encode K ns order = Ok kb -> in_namespace ns kb.
Proof.
  intros Hc. unfold Encode. rewrite Hc.
  destruct (encodeValues order 0 (values K)) as [r|e|m]; simpl; try discriminate.
  intros H. inversion H. exists r. reflexivity.
Qed.

(** [Truncate] only deletes, on every namespace: it reports no error, a
    key found after it was there before with the same value, and calling
    it again changes nothing more. *)
Theorem Truncate_only_deletes (t : Tree) (s : mem.store) :
  snd (Truncate t s) = None /\
  (forall k v, mem.lookup k (fst (Truncate t s)) = Some v -> mem.lookup k s = Some v) /\
  (forall k v, In (k, v) (fst (Truncate t s)) -> In (k, v) s) /\
  Truncate t (fst (Truncate t s)) = Truncate t s.
Proof.
  split; [reflexivity|]. split; [|split].
  - intros k v. rewrite Truncate_mem. cbn [fst]. rewrite lookup_outside.
    destruct (in_range (truncate_lo t) (truncate_hi t) k); [discriminate|auto].
  - intros k v. rewrite Truncate_mem. cbn [fst]. intros H.
    apply outside_in in H. tauto.
  - apply Truncate_idempotent.
Qed.

(** Where the successor of the namespace does not overflow, [Truncate]
    empties the tree and nothing else: [Get] and [Exists] then miss every
    key of the tree, and answer as before on every key of a tree of
    another namespace. *)
Theorem Truncate_clears_the_tree (t : Tree) (s : mem.store) :
  EncodeInt_ordered -> tags_below_xFF ->
  int64_of_ns (Namespace_ t) <> MaxInt64 ->
  (forall K kb, Encoded K = None -> Encode K (Namespace_ t) (Order t) = Ok kb ->
     Get t K (fst (Truncate t s)) = Err ErrKeyNotFound /\
     Exists t K (fst (Truncate t s)) = Ok false) /\
  (forall t' K' kb',
     int64_of_ns (Namespace_ t') <> int64_of_ns (Namespace_ t) ->
     Encoded K' = None -> Encode K' (Namespace_ t') (Order t') = Ok kb' ->
     Get t' K' (fst (Truncate t s)) = Get t' K' s /\
     Exists t' K' (fst (Truncate t s)) = Exists t' K' s).
Proof.
  intros Hord Htag Hmax. split.
  - intros K kb Hc Hk.
    rewrite (Get_mem t K kb _ Hk), (Exists_mem t K kb _ Hk), Truncate_mem. cbn [fst].
    rewrite lookup_outside.
    rewrite (whole_inside_truncate t kb Hord Hmax (Encode_in_whole t K kb Htag Hc Hk)).
    auto.
  - intros t' K' kb' Hne Hc Hk.
    rewrite !(Get_mem t' K' kb' _ Hk), !(Exists_mem t' K' kb' _ Hk), Truncate_mem.
    cbn [fst]. rewrite lookup_outside.
    destruct (Encode_prefix K' _ _ kb' Hc Hk) as [rest ->].
    rewrite (other_namespace_outside t _ rest Hord Hmax
               (int64_of_ns_range (Namespace_ t')) Hne).
    auto.
Qed.

(** [NewTransient] never panics on a store: it is refused, with the error
    of its callback, exactly when some stored key extends the prefix of
    the namespace by a suffix that does not start with 0xFF, and granted,
    with [Truncate] as its cleanup handle, otherwise. *)
Theorem NewTransient_decides (ns : Namespace) (order : SortOrder) (s : mem.store) :
  (NewTransient ns order s = Err (ErrNamespaceInUse ns) <->
   exists k v rest, In (k, v) s /\ k = EncodeInt (int64_of_ns ns) ++ rest /\
                    hd_error rest <> Some xFF) /\
  (NewTransient ns order s = Ok (mkTree ns order, Truncate (mkTree ns order)) <->
   forall k v rest, In (k, v) s -> k = EncodeInt (int64_of_ns ns) ++ rest ->
                    hd_error rest = Some xFF).
Proof.
  assert (Hin : forall k v, In (k, v) s ->
            in_range (EncodeInt (int64_of_ns ns)) (buildLastKey (mkTree ns order)) k = true ->
            NewTransient ns order s = Err (ErrNamespaceInUse ns))
    by (intros k v; apply NewTransient_in_use).
  pose proof (NewTransient_free ns order s) as Hfree.
  unfold buildLastKey in Hin, Hfree. cbn [Namespace_] in Hin, Hfree.
  assert (D : (exists k v, In (k, v) s /\
                 in_range (EncodeInt (int64_of_ns ns))
                   (EncodeInt (int64_of_ns ns) ++ [xFF]) k = true) \/
              (forall k v, In (k, v) s ->
                 in_range (EncodeInt (int64_of_ns ns))
                   (EncodeInt (int64_of_ns ns) ++ [xFF]) k = false)).
  { clear Hin Hfree. induction s as [|[k v] s IH].
    - right. intros k v [].
    - destruct (in_range (EncodeInt (int64_of_ns ns))
                  (EncodeInt (int64_of_ns ns) ++ [xFF]) k) eqn:E.
      + left. exists k, v. split; [left; reflexivity|exact E].
      + destruct IH as [[k' [v' [H1 H2]]]|IH].
        * left. exists k', v'. split; [right; exact H1|exact H2].
        * right. intros k' v' [X|X]; [inversion X; subst; exact E|eauto]. }
  split; split.
  - intros HN. destruct D as [[k [v [H1 H2]]]|D].
    + apply in_prefix_range in H2. destruct H2 as [rest [-> Hh]].
      exists (EncodeInt (int64_of_ns ns) ++ rest), v, rest. auto.
    + rewrite (Hfree D) in HN. discriminate.
  - intros [k [v [rest [H1 [-> Hh]]]]]. apply (Hin _ v H1).
    apply in_prefix_range. exists rest. auto.
  - intros HN k v rest H1 ->.
    destruct (hd_error rest) as [x|] eqn:Hh.
    + destruct (Byte.byte_eq_dec x xFF) as [->|Hx]; [reflexivity|].
      rewrite (Hin _ v H1) in HN; [discriminate|].
      apply in_prefix_range. exists rest. split; [reflexivity|]. congruence.
    + rewrite (Hin _ v H1) in HN; [discriminate|].
      apply in_prefix_range. exists rest. split; [reflexivity|]. congruence.
  - intros H. apply Hfree. intros k v H1.
    destruct (in_range (EncodeInt (int64_of_ns ns))
                (EncodeInt (int64_of_ns ns) ++ [xFF]) k) eqn:E; [|reflexivity].
    apply in_prefix_range in E. destruct E as [rest [-> Hh]].
    exfalso. apply Hh. exact (H _ v rest H1 eq_refl).
Qed.

(** The life of a transient tree, where the successor of its namespace
    does not overflow: whatever the store holds when the cleanup handle
    is called, once or more, the namespace is free again afterwards -
    [NewTransient] grants it - and the keys of the other namespaces are
    as they were. *)
Theorem cleanup_frees_the_namespace (ns : Namespace) (order : SortOrder)
  (s : mem.store) (n : nat) :
  EncodeInt_ordered ->
  int64_of_ns ns <> MaxInt64 ->
  let cleanup := fun s => fst (Truncate (mkTree ns order) s) in
  NewTransient ns order (Nat.iter (Datatypes.S n) cleanup s)
  = Ok (mkTree ns order, Truncate (mkTree ns order)) /\
  (forall m rest, is_int64 m -> m <> int64_of_ns ns ->
     mem.lookup (EncodeInt m ++ rest) (Nat.iter (Datatypes.S n) cleanup s)
     = mem.lookup (EncodeInt m ++ rest) s).
Proof.
  intros Hord Hmax cleanup. split.
  - apply (cleanup_restores ns order s n Hord Hmax).
  - intros m rest Hm Hne. unfold cleanup. rewrite Truncate_repeated.
    apply (proj2 (proj2 (Truncate_isolation (mkTree ns order) s Hord Hmax))); auto.
Qed.

End TruncateOnStore.

Section TruncateOnStoreChecks.

#[local] Existing Instance demo.codec.
#[local] Existing Instance mem.session.

Lemma Truncate_only_deletes_witness :
  mem.lookup (demo.EncodeInt 13 ++ [Byte.x20] ++ demo.EncodeInt 1)
    (demo.put (mkTree 13 0) demo.k_1 [Byte.x7a] demo.s3) = Some [Byte.x7a].
Proof.
  apply (proj1 (proj2 (Truncate_only_deletes demo.t_asc
                         (demo.put (mkTree 13 0) demo.k_1 [Byte.x7a] demo.s3)))).
  vm_compute. reflexivity.
Defined.

Lemma Truncate_clears_the_tree_witness :
  Get demo.t_asc demo.k_1_10 (fst (Truncate demo.t_asc demo.s3)) = Err ErrKeyNotFound /\
  Get demo.t_desc demo.k_1 (fst (Truncate demo.t_asc demo.s2)) = Get demo.t_desc demo.k_1 demo.s2.
Proof.
  split.
  - apply (proj1 (Truncate_clears_the_tree demo.t_asc demo.s3
                    demo_EncodeInt_ordered demo_tags_below_xFF
                    ltac:(vm_compute; discriminate))
             demo.k_1_10 _ eq_refl eq_refl).
  - apply (proj2 (Truncate_clears_the_tree demo.t_asc demo.s2
                    demo_EncodeInt_ordered demo_tags_below_xFF
                    ltac:(vm_compute; discriminate))
             demo.t_desc demo.k_1 _ ltac:(vm_compute; discriminate) eq_refl eq_refl).
Defined.

Lemma NewTransient_decides_witness :
  NewTransient 12 0 demo.s3 = Err (ErrNamespaceInUse 12).
Proof.
  apply (proj2 (proj1 (NewTransient_decides 12 0 demo.s3))).
  exists (demo.EncodeInt 12 ++ [Byte.x20] ++ demo.EncodeInt 1
            ++ [Byte.x20] ++ demo.EncodeInt 10), [Byte.x61],
         ([Byte.x20] ++ demo.EncodeInt 1 ++ [Byte.x20] ++ demo.EncodeInt 10).
  split; [vm_compute; left; reflexivity|]. split; [reflexivity|discriminate].
Defined.

Lemma cleanup_frees_the_namespace_witness :
  NewTransient 12 0
    (Nat.iter 2 (fun s => fst (Truncate (mkTree 12 0) s)) demo.s3)
  = Ok (mkTree 12 0, Truncate (mkTree 12 0)).
Proof.
  apply (proj1 (cleanup_frees_the_namespace (codec := demo.codec) 12 0 demo.s3 1
                  demo_EncodeInt_ordered ltac:(vm_compute; discriminate))).
Defined.

End TruncateOnStoreChecks.

(** ** The text of a union *)

Lemma string_append_assoc (a b c : string) :
  ((a ++ b) ++ c)%string = (a ++ (b ++ c))%string.
Proof. induction a as [|x a IH]; simpl; [reflexivity|now rewrite IH]. Qed.

Lemma string_append_nil_r (a : string) : (a ++ EmptyString)%string = a.
Proof. induction a as [|x a IH]; simpl; [reflexivity|now rewrite IH]. Qed.

Lemma write_ops_later (ops : list string) :
  forall (i : nat) (s : string),
    (0 < i)%nat ->
    stream.write_ops i ops s
    = (s ++ match ops with
            | [] => EmptyString
            | _ :: _ => ", " ++ String.concat ", " ops
            end)%string.
Proof.
  induction ops as [|op rest IH]; intros i s Hi; cbn [stream.write_ops].
  - now rewrite string_append_nil_r.
  - destruct (Nat.ltb_spec 0 i) as [_|C]; [|lia].
    rewrite IH by lia. destruct rest as [|op' rest].
    + cbn [String.concat]. now rewrite string_append_nil_r, !string_append_assoc.
    + change (String.concat ", " (op :: op' :: rest))
        with (op ++ ", " ++ String.concat ", " (op' :: rest))%string.
      now rewrite !string_append_assoc.
Qed.

(** The text of a union is ["union("], the texts of its operands joined
    by [", "] - no separator before the first or after the last -, and
    [")"]. *)
Theorem union_String_joins (ops : list string) :
  stream.String ops = ("union(" ++ String.concat ", " ops ++ ")")%string.
Proof.
  unfold stream.String. destruct ops as [|op rest]; [reflexivity|].
  cbn [stream.write_ops Nat.ltb Nat.leb].
  rewrite write_ops_later by lia.
  destruct rest as [|op' rest].
  - cbn [String.concat]. now rewrite string_append_nil_r, !string_append_assoc.
  - change (String.concat ", " (op :: op' :: rest))
      with (op ++ ", " ++ String.concat ", " (op' :: rest))%string.
    now rewrite !string_append_assoc.
Qed.

Example union_String_demo :
  stream.String [] = "union()"%string /\
  stream.String ["seqScan(a)"; "seqScan(b)"]%string = "union(seqScan(a), seqScan(b))"%string.
Proof. split; reflexivity. Qed.

(* ------------------------------------------------------------------ *)
(** * The boundaries of a Range *)

Section RangeBoundaries.

Context {codec : Codec}.

(** What [IterateOnRange] does once the boundaries are known. *)
Lemma IterateOnRange_opens {S : Type} {session : engine.Session S} {A : Type}
  (t : Tree) (rng : Range) (reverse : bool) (fn : callback A) (a : A) (s : S)
  (start end_ : bytes) :
  boundaries t rng = Ok (start, end_) ->
  IterateOnRange t (Some rng) reverse fn a s
  = iterate (engine.NewIterator s (engine.mkIterOptions start end_)) reverse fn a.
Proof. intros H. unfold IterateOnRange. now rewrite H. Qed.

(** The boundaries of a range, by its direction and its flag. *)
Lemma boundaries_by_direction (t : Tree) (rng : Range) (desc : bool) :
  isDescRange t rng = Ok desc ->
  boundaries t rng
  = (if Exclusive rng
     then buildExclusiveBoundaries t
            (if desc then Max rng else Min rng) (if desc then Min rng else Max rng) desc
     else buildInclusiveBoundaries t
            (if desc then Max rng else Min rng) (if desc then Min rng else Max rng) desc).
Proof.
  intros H. unfold boundaries. rewrite H. cbn [bind].
  destruct desc, (Exclusive rng); reflexivity.
Qed.



(** C3. For every Range with exactly one side absent and the other
    given by a key [k], of direction [desc]: the bound [IterateOnRange]
    synthesizes for the open side is a prefix followed by one sentinel
    tag of the type of the last component of [k] - the Min sentinel when
    the open side is the lower bound, the Max sentinel when it is the
    upper bound, the descending one of the two when the direction is
    descending. The prefix is [EncodeInt(namespace)] when [k] has arity
    1 and the encoding of its first [n-1] components when it has arity
    [n > 1]. The given key bounds the other side as in C1. (With a
    descending direction the roles are swapped first: the given [Min]
    bounds the upper side and the open side is the lower one.) *)
Theorem open_bound_synthesis (t : Tree) (rng : Range) (k : Key) (desc : bool)
  (b prefix : bytes) (v : Value) :
  isDescRange t rng = Ok desc ->
  (Min rng = Some k /\ Max rng = None) \/ (Min rng = None /\ Max rng = Some k) ->
  Encode k (Namespace_ t) (Order t) = Ok b ->
  (values k = [v] /\ prefix = EncodeInt (int64_of_ns (Namespace_ t))) \/
  (exists pre, values k = pre ++ [v] /\ pre <> [] /\
               Encode (NewKey pre) (Namespace_ t) (Order t) = Ok prefix) ->
  let bounds :=
    match (if desc then Max rng else Min rng) with
    | Some _ => (if Exclusive rng then b ++ [xFF] else b,
                 prefix ++ [max_sentinel desc (TypeOf v)])
    | None => (prefix ++ [min_sentinel desc (TypeOf v)],
               if Exclusive rng then b else b ++ [xFF])
    end in
  boundaries t rng = Ok bounds /\
  (forall (S : Type) (session : engine.Session S) (A : Type) reverse
          (fn : callback A) a (s : S),
     IterateOnRange t (Some rng) reverse fn a s
     = iterate (engine.NewIterator s (engine.mkIterOptions (fst bounds) (snd bounds)))
         reverse fn a).
Proof.
  intros Hd Hside Hb Harity bounds.
  assert (O : buildInclusiveBoundaries t None (Some k) desc
              = Ok (prefix ++ [min_sentinel desc (TypeOf v)], b ++ [xFF]) /\
              buildInclusiveBoundaries t (Some k) None desc
              = Ok (b, prefix ++ [max_sentinel desc (TypeOf v)]) /\
              buildExclusiveBoundaries t None (Some k) desc
              = Ok (prefix ++ [min_sentinel desc (TypeOf v)], b) /\
              buildExclusiveBoundaries t (Some k) None desc
              = Ok (b ++ [xFF], prefix ++ [max_sentinel desc (TypeOf v)])).
  { destruct Harity as [[Hv ->] | [pre [Hv [Hpre Hp]]]].
    - destruct (proj1 (open_bound_builders t k desc b Hb) v Hv)
        as [_ [_ [H1 [H2 [H3 H4]]]]]. auto.
    - destruct (proj2 (open_bound_builders t k desc b Hb) pre v prefix Hv Hpre Hp)
        as [_ [_ [H1 [H2 [H3 H4]]]]]. auto. }
  destruct O as [O1 [O2 [O3 O4]]].
  assert (B : boundaries t rng = Ok bounds).
  { rewrite (boundaries_by_direction t rng desc Hd). unfold bounds.
    destruct Hside as [[-> ->] | [-> ->]], desc, (Exclusive rng); assumption. }
  split; [exact B|].
  intros S session A reverse fn a s.
  apply IterateOnRange_opens. rewrite B. now destruct bounds.
Qed.

End RangeBoundaries.

Section RangeBoundaryChecks.

#[local] Existing Instance demo.codec.
#[local] Existing Instance mem.session.


(** S5 (the upper side open on a partial key), an ascending range with
    the lower side open on a composite key, and a descending range with
    [Max] absent: the given [Min] bounds the upper side and the lower
    side is open, with the descending Min sentinel. *)
Lemma open_bound_synthesis_witness :
  boundaries demo.t_asc (mkRange (Some demo.k_1) None false)
  = Ok ((demo.EncodeInt 12 ++ [Byte.x20] ++ demo.EncodeInt 1), demo.EncodeInt 12 ++ [Byte.x21]) /\
  boundaries demo.t_asc (mkRange None (Some demo.k_1_10) true)
  = Ok ((demo.EncodeInt 12 ++ [Byte.x20] ++ demo.EncodeInt 1) ++ [Byte.x1f], (demo.EncodeInt 12 ++ [Byte.x20] ++ demo.EncodeInt 1 ++ [Byte.x20] ++ demo.EncodeInt 10)) /\
  boundaries demo.t_desc (mkRange (Some demo.k_1) None false)
  = Ok (demo.EncodeInt 11 ++ [Byte.xde], (demo.EncodeInt 11 ++ demo.complement (Byte.x20 :: demo.EncodeInt 1)) ++ [xFF]).
Proof.
  pose proof (open_bound_synthesis demo.t_asc (mkRange (Some demo.k_1) None false)
                demo.k_1 false (demo.EncodeInt 12 ++ [Byte.x20] ++ demo.EncodeInt 1) (demo.EncodeInt 12) (demo.VInt 1)
                ltac:(vm_compute; reflexivity) ltac:(left; split; reflexivity)
                ltac:(vm_compute; reflexivity) ltac:(left; split; reflexivity)) as H1.
  assert (A : (values demo.k_1_10 = [demo.VInt 10]
               /\ (demo.EncodeInt 12 ++ [Byte.x20] ++ demo.EncodeInt 1) = EncodeInt (int64_of_ns (Namespace_ demo.t_asc))) \/
              (exists pre, values demo.k_1_10 = pre ++ [demo.VInt 10] /\ pre <> [] /\
                 Encode (NewKey pre) (Namespace_ demo.t_asc) (Order demo.t_asc)
                 = Ok (demo.EncodeInt 12 ++ [Byte.x20] ++ demo.EncodeInt 1))).
  { right. exists [demo.VInt 1]. split; [reflexivity|].
    split; [discriminate | vm_compute; reflexivity]. }
  pose proof (open_bound_synthesis demo.t_asc (mkRange None (Some demo.k_1_10) true)
                demo.k_1_10 false (demo.EncodeInt 12 ++ [Byte.x20] ++ demo.EncodeInt 1 ++ [Byte.x20] ++ demo.EncodeInt 10) (demo.EncodeInt 12 ++ [Byte.x20] ++ demo.EncodeInt 1) (demo.VInt 10)
                ltac:(vm_compute; reflexivity) ltac:(right; split; reflexivity)
                ltac:(vm_compute; reflexivity) A) as H2.
  pose proof (open_bound_synthesis demo.t_desc (mkRange (Some demo.k_1) None false)
                demo.k_1 true (demo.EncodeInt 11 ++ demo.complement (Byte.x20 :: demo.EncodeInt 1)) (demo.EncodeInt 11) (demo.VInt 1)
                ltac:(vm_compute; reflexivity) ltac:(left; split; reflexivity)
                ltac:(vm_compute; reflexivity) ltac:(left; split; reflexivity)) as H3.
  cbv zeta in H1, H2, H3. cbn [Exclusive Min Max] in H1, H2, H3.
  split; [exact (proj1 H1)|]. split; [exact (proj1 H2) | exact (proj1 H3)].
Defined.

End RangeBoundaryChecks.
